(** * The NBL rating engine ([utils/ratings.py]): model and properties

    [RatingSystem] keeps one rating per team in a Python dict, moves rating
    mass between the two teams of each game in proportion to the surprise of
    the margin of victory, and logs one record per game.

    Numbers.  Scores are Python ints ([Z]).  Ratings, the K-factor and the
    home advantage are Python floats.  The engine is written once over an
    interface [Arith] of the operations the source applies to them, and the
    interface is inhabited twice:
    - [R_arith]: exact real arithmetic, the level at which the equations
      of the rating rule are stated (a rating is a real-valued scalar);
    - [binary64_arith]: IEEE 754 double precision, which is what CPython
      evaluates.
    Properties that only depend on the control and data flow of the source
    are proved for every [Arith]; algebraic ones are proved over [R] and
    say so; where the doubles of the program differ from the exact values,
    the difference is stated at [binary64_arith].

    Objects.  A dict is a mutable object: the constructor keeps the dict it
    is given, so the ratings live in a heap of dicts and the engine holds a
    reference into it. *)

From Stdlib Require Import ZArith Reals Lra Floats.
From stdpp Require Import gmap strings list fin_maps sorting.

Set Default Proof Using "Type".

(* Decimal float literals below denote the nearest binary64 value. *)
Set Warnings "-inexact-float".

(** ** Arithmetic interface *)

Class Arith (T : Type) := {
  of_int : Z → T;          (* an int operand of a mixed int/float operation *)
  zero : T;                (* the literal 0.0 *)
  add : T → T → T;
  sub : T → T → T;
  mul : T → T → T;
  div : T → T → T;
  opp : T → T;
}.

(** [math.exp], where it is available. *)
Class Exp (T : Type) `{Arith T} := exp_ : T → T.

(** A decimal literal [m * 10^-e] such as [0.05] or [2.2]. *)
Definition lit `{Arith T} (m : Z) (e : nat) : T :=
  div (of_int m) (of_int (10 ^ Z.of_nat e)).

#[export] Instance R_arith : Arith R := {|
  of_int := IZR;
  zero := 0%R;
  add := Rplus;
  sub := Rminus;
  mul := Rmult;
  div := Rdiv;
  opp := Ropp;
|}.

#[export] Instance R_exp : Exp R := exp.

(** int -> float: the integer rounded to the nearest double, ties to even,
    as CPython converts an int operand.  An int beyond the range of doubles
    gives [infinity] here, where CPython raises [OverflowError]: the model
    is that of the code for ints below [2^1024] in magnitude. *)
Definition float_of_int (z : Z) : float :=
  SF2Prim (SpecFloat.binary_normalize prec emax z 0 false).

#[export] Instance binary64_arith : Arith float := {|
  of_int := float_of_int;
  zero := 0%float;
  add := PrimFloat.add;
  sub := PrimFloat.sub;
  mul := PrimFloat.mul;
  div := PrimFloat.div;
  opp := PrimFloat.opp;
|}.

(** ** The heap of dicts *)

Abbreviation loc := positive.

Section engine.
Context {T : Type} `{Arith T}.

Abbreviation dict := (gmap string T).
Abbreviation heap := (gmap loc (gmap string T)).

(** The dict a reference denotes. *)
Definition deref (h : heap) (l : loc) : dict := default ∅ (h !! l).

(** [{}]: a new dict object. *)
Definition new_dict (h : heap) : heap * loc :=
  let l := fresh (dom h) in (<[l := ∅]> h, l).

(** [d.get(key, default)] *)
Definition dict_get (h : heap) (l : loc) (key : string) (default_ : T) : T :=
  default default_ (deref h l !! key).

(** [d[key]]: raises [KeyError] on a missing key. *)
Definition dict_getitem (h : heap) (l : loc) (key : string) : option T :=
  deref h l !! key.

(** [d[key] = v] *)
Definition dict_setitem (h : heap) (l : loc) (key : string) (v : T) : heap :=
  <[l := <[key := v]> (deref h l)]> h.

(** ** Records *)

(** The dict [game_result] built by [play_game]. *)
Record GameRecord := mkGameRecord {
  timestamp : string;
  home : string;
  away : string;
  home_score : Z;
  away_score : Z;
  home_rating_before : T;
  away_rating_before : T;
  home_rating_after : T;
  away_rating_after : T;
  expected_mov_ : T;
  actual_mov_ : Z;
  delta_rating_ : T;
  home_team_full : string;
  away_team_full : string;
}.

Record RatingSystem := mkRatingSystem {
  ratings : loc;
  team_mapping : gmap string string;
  k : T;
  home_adv : T;
  game_history : list GameRecord;
}.

(** [__init__(self, initial_ratings=None, team_mapping=None, k=0.05,
    home_adv=2.2)].  [initial_ratings or {}] keeps the caller's dict unless
    it is [None] or empty, in which case a new dict is made. *)
Definition init (h : heap) (initial_ratings : option loc)
    (team_mapping_arg : option (gmap string string))
    (k_arg home_adv_arg : option T) : heap * RatingSystem :=
  let '(h', l) :=
    match initial_ratings with
    | Some l => if decide (deref h l = ∅) then new_dict h else (h, l)
    | None => new_dict h
    end in
  (h', {| ratings := l;
          team_mapping := default ∅ team_mapping_arg;
          k := default (lit 5 2) k_arg;
          home_adv := default (lit 22 1) home_adv_arg;
          game_history := [] |}).

Definition expected_mov (self : RatingSystem) (home_rating away_rating : T) : T :=
  sub (add home_rating (home_adv self)) away_rating.

Definition delta_rating (self : RatingSystem) (actual_mov : Z) (expected : T) : T :=
  mul (k self) (sub (of_int actual_mov) expected).

(** [play_game]; [now] is the string [datetime.now().isoformat()] returns. *)
Definition play_game (h : heap) (self : RatingSystem) (now : string)
    (home_ away_ : string) (home_score_ away_score_ : Z)
    : option (heap * RatingSystem * GameRecord) :=
  let home_rating := dict_get h (ratings self) home_ zero in
  let away_rating := dict_get h (ratings self) away_ zero in
  let actual_mov := (home_score_ - away_score_)%Z in
  let exp_mov := expected_mov self home_rating away_rating in
  let dr := delta_rating self actual_mov exp_mov in
  let h := dict_setitem h (ratings self) home_ (add home_rating dr) in
  let h := dict_setitem h (ratings self) away_ (sub away_rating dr) in
  home_after ← dict_getitem h (ratings self) home_;
  away_after ← dict_getitem h (ratings self) away_;
  let game_result :=
    {| timestamp := now;
       home := home_;
       away := away_;
       home_score := home_score_;
       away_score := away_score_;
       home_rating_before := home_rating;
       away_rating_before := away_rating;
       home_rating_after := home_after;
       away_rating_after := away_after;
       expected_mov_ := exp_mov;
       actual_mov_ := actual_mov;
       delta_rating_ := dr;
       home_team_full := default home_ (team_mapping self !! home_);
       away_team_full := default away_ (team_mapping self !! away_) |} in
  Some (h,
        {| ratings := ratings self;
           team_mapping := team_mapping self;
           k := k self;
           home_adv := home_adv self;
           game_history := game_history self ++ [game_result] |},
        game_result).

(** [get_team_rating]; the state is returned with the value, so that what a
    read leaves behind can be stated. *)
Definition get_team_rating (h : heap) (self : RatingSystem) (team : string)
    : heap * RatingSystem * T :=
  (h, self, dict_get h (ratings self) team zero).

(** The loop of the caller ([for game in new_games: play_game(...)]): the
    games of a list, in order, each with the clock reading of its call. *)
Record GameResult := mkGameResult {
  res_home : string;
  res_away : string;
  res_home_score : Z;
  res_away_score : Z;
}.

Fixpoint play_games (h : heap) (self : RatingSystem)
    (games : list (string * GameResult)) : option (heap * RatingSystem) :=
  match games with
  | [] => Some (h, self)
  | (now, g) :: rest =>
      r ← play_game h self now (res_home g) (res_away g)
             (res_home_score g) (res_away_score g);
      play_games r.1.1 r.1.2 rest
  end.

(** What a replay reads from a logged record. *)
Definition result_of_record (r : GameRecord) : GameResult :=
  {| res_home := home r; res_away := away r;
     res_home_score := home_score r; res_away_score := away_score r |}.

(** The rating map of an engine, and what the constructor argument denotes. *)
Definition rating_map (h : heap) (self : RatingSystem) : dict :=
  deref h (ratings self).

Definition initial_contents (h : heap) (initial_ratings : option loc) : dict :=
  match initial_ratings with Some l => deref h l | None => ∅ end.

(** [sum(...)] over the ratings of the map.  The order in which a fold
    visits the entries does not matter in exact arithmetic, which is where
    the sum is reasoned about. *)
Definition sum_ratings (d : dict) : T :=
  map_fold (λ _ v acc, add v acc) zero d.

(** A record without its clock reading, and without the display names too. *)
Definition erase_timestamp (r : GameRecord) : GameRecord :=
  {| timestamp := "";
     home := home r; away := away r;
     home_score := home_score r; away_score := away_score r;
     home_rating_before := home_rating_before r;
     away_rating_before := away_rating_before r;
     home_rating_after := home_rating_after r;
     away_rating_after := away_rating_after r;
     expected_mov_ := expected_mov_ r;
     actual_mov_ := actual_mov_ r;
     delta_rating_ := delta_rating_ r;
     home_team_full := home_team_full r;
     away_team_full := away_team_full r |}.

Definition erase_names (r : GameRecord) : GameRecord :=
  {| timestamp := timestamp r;
     home := home r; away := away r;
     home_score := home_score r; away_score := away_score r;
     home_rating_before := home_rating_before r;
     away_rating_before := away_rating_before r;
     home_rating_after := home_rating_after r;
     away_rating_after := away_rating_after r;
     expected_mov_ := expected_mov_ r;
     actual_mov_ := actual_mov_ r;
     delta_rating_ := delta_rating_ r;
     home_team_full := "";
     away_team_full := "" |}.

End engine.

Arguments GameRecord : clear implicits.
Arguments RatingSystem : clear implicits.

(** ** Prediction *)

Section prediction.
Context {T : Type} `{Exp T}.

(** The dict [predict_game] returns. *)
Record Prediction := mkPrediction {
  pred_home : string;
  pred_away : string;
  pred_home_rating : T;
  pred_away_rating : T;
  pred_expected_mov : T;
  pred_home_win_probability : T;
}.

(** [1 / (1 + math.exp(-mov / 10))] *)
Definition _mov_to_probability (mov : T) : T :=
  div (of_int 1) (add (of_int 1) (exp_ (div (opp mov) (of_int 10)))).

Definition predict_game (h : gmap loc (gmap string T)) (self : RatingSystem T)
    (home_ away_ : string)
    : gmap loc (gmap string T) * RatingSystem T * Prediction :=
  let home_rating := dict_get h (ratings self) home_ zero in
  let away_rating := dict_get h (ratings self) away_ zero in
  let expected := expected_mov self home_rating away_rating in
  (h, self,
   {| pred_home := home_;
      pred_away := away_;
      pred_home_rating := home_rating;
      pred_away_rating := away_rating;
      pred_expected_mov := expected;
      pred_home_win_probability := _mov_to_probability expected |}).

End prediction.

Arguments Prediction : clear implicits.

(** ** [math.exp] and the prediction that can raise

    [math.exp] raises [OverflowError] when the exponential is beyond the
    range of doubles, and with it [predict_game]: [math_exp] returns [None]
    there.  In exact arithmetic it always returns. *)

Class MathExp (T : Type) := math_exp : T → option T.

#[export] Instance R_math_exp : MathExp R := λ x, Some (exp x).

(** The exponential of the C library at binary64.  The library is not part
    of the repository; it returns the exponential rounded to a double,
    within a unit in the last place.  Here: the exponential computed in
    fixed point with 192 fractional bits ([2^k * exp r] with
    [r = x - k ln 2], [ln 2 = 2 atanh (1/3)], both by their power series)
    and rounded to the nearest double. *)
Fixpoint atanh_third (p : Z) (n : nat) (i : Z) (pow3 : Z) : Z :=
  match n with
  | O => 0
  | S n' => (2 ^ p / (pow3 * i) + atanh_third p n' (i + 2) (pow3 * 9))%Z
  end.

Definition ln2_fix : Z := Eval vm_compute in (2 * atanh_third 192 80 1 3)%Z.

Fixpoint exp_series (p : Z) (r : Z) (n : nat) (i : Z) (term : Z) : Z :=
  match n with
  | O => 0
  | S n' => (term + exp_series p r n' (i + 1) (term * r / 2 ^ p / i))%Z
  end.

Definition libm_exp (x : float) : float :=
  match Prim2SF x with
  | S754_nan => x
  | S754_zero _ => 1%float
  | S754_infinity s => if s then 0%float else x
  | S754_finite s m e =>
      if (2048 <? x)%float then infinity
      else if (x <? -2048)%float then 0%float
      else
        let a := Z.shiftl (Zpos m) (e + 192) in
        let xf := if s then (- a)%Z else a in
        let k := ((2 * xf + ln2_fix) / (2 * ln2_fix))%Z in
        let r := (xf - k * ln2_fix)%Z in
        SF2Prim (SpecFloat.binary_normalize prec emax
                   (exp_series 192 r 60 1 (2 ^ 192)) (k - 192) false)
  end.

(** CPython's wrapper: an infinite result from a finite argument is an
    [OverflowError]. *)
#[export] Instance binary64_math_exp : MathExp float := λ x,
  let r := libm_exp x in
  if PrimFloat.is_infinity r && negb (PrimFloat.is_infinity x)
  then None else Some r.

Module Raising.
Section prediction.
Context {T : Type} `{Arith T} `{MathExp T}.

(** [1 / (1 + math.exp(-mov / 10))] *)
Definition _mov_to_probability (mov : T) : option T :=
  e ← math_exp (div (opp mov) (of_int 10));
  Some (div (of_int 1) (add (of_int 1) e)).

(** [predict_game]: heap and engine after the call, and the dict returned,
    or [None] when [_mov_to_probability] raises. *)
Definition predict_game (h : gmap loc (gmap string T)) (self : RatingSystem T)
    (home_ away_ : string)
    : gmap loc (gmap string T) * RatingSystem T * option (Prediction T) :=
  let home_rating := dict_get h (ratings self) home_ zero in
  let away_rating := dict_get h (ratings self) away_ zero in
  let expected := expected_mov self home_rating away_rating in
  (h, self,
   p ← _mov_to_probability expected;
   Some {| pred_home := home_;
           pred_away := away_;
           pred_home_rating := home_rating;
           pred_away_rating := away_rating;
           pred_expected_mov := expected;
           pred_home_win_probability := p |}).

End prediction.
End Raising.

(** ** A concrete run in binary64

    A caller's dict [{"A": 1.0}] at reference 1, an engine built on it with
    the default parameters, and two games. *)

Definition demo_heap : gmap loc (gmap string float) :=
  {[ 1%positive := {[ "A" := 1%float ]} ]}.

Definition demo_games : list (string * GameResult) :=
  [("t1", mkGameResult "A" "B" 90 85); ("t2", mkGameResult "B" "A" 80 100)].

(** Heap and engine after the two games. *)
Definition demo_final : gmap loc (gmap string float) * RatingSystem float :=
  Eval vm_compute in
    let s := init demo_heap (Some 1%positive) None None None in
    default s (play_games s.1 s.2 demo_games).

(** ** Standings and the dashboard

    The rest of [RatingSystem] and the parts of [app.py] that drive it. *)

(** [x < y] on ratings: what [sorted], [min] and [max] compare with. *)
Class Less (T : Type) := less : T → T → bool.

#[export] Instance Rlt_decision : RelDecision Rlt := Rlt_dec.
#[export] Instance R_eq_decision : EqDecision R := Req_dec_T.

#[export] Instance R_less : Less R := λ x y, bool_decide (x < y)%R.
#[export] Instance binary64_less : Less float := PrimFloat.ltb.

#[export] Instance GameResult_eq_decision : EqDecision GameResult.
Proof. solve_decision. Defined.

Section dashboard.
Context {T : Type} `{Arith T} `{Less T}.

(** [sorted(l, key=lambda x: x[1], reverse=True)].  The sort is stable and
    [reverse=True] keeps it so: CPython reverses the list, sorts it in
    ascending order and reverses the result.  Read from the front, every
    item is put below the items it is not greater than.  This is the result
    of [sorted] wherever [<] orders the ratings; with a NaN among them it
    does not, CPython's result depends on its algorithm, and nothing is
    stated: the ordering theorems are in exact arithmetic. *)
Fixpoint insert_desc (x : string * T) (s : list (string * T))
    : list (string * T) :=
  match s with
  | [] => [x]
  | y :: s' => if less y.2 x.2 then x :: y :: s' else y :: insert_desc x s'
  end.

Definition sorted_desc (l : list (string * T)) : list (string * T) :=
  foldr insert_desc [] (rev l).

(** [self.ratings.items()] lists the entries of the dict in insertion
    order, which the heap does not record: [items] is any listing of the
    entries of the rating map. *)
Definition dict_items (h : gmap loc (gmap string T)) (l : loc)
    (items : list (string * T)) : Prop :=
  items ≡ₚ map_to_list (deref h l).

(** [get_standings], on the listing [self.ratings.items()] gives. *)
Definition get_standings (self : RatingSystem T) (items : list (string * T))
    : list (string * T) :=
  sorted_desc
    ((λ it, (default it.1 (team_mapping self !! it.1), it.2)) <$> items).

(** [max(a, b)] and [min(a, b)] of two arguments: the first argument wins
    unless the second is strictly beyond it. *)
Definition py_max (a b : T) : T := if less a b then b else a.
Definition py_min (a b : T) : T := if less b a then b else a.

(** The argument of [st.progress] in the standings column:
    [min(max((rating + 10) / 20, 0), 1)]. *)
Definition progress_value (rating : T) : T :=
  py_min (py_max (div (add rating (of_int 10)) (of_int 20)) (of_int 0))
    (of_int 1).

(** [sum(...)] of a list: from the int 0, left to right. *)
Definition py_sum (l : list T) : T := foldl add (of_int 0) l.

(** [avg_rating = sum(r for _, r in standings) / len(standings)], which the
    dashboard computes under [if standings:]. *)
Definition avg_rating (standings : list (string * T)) : T :=
  div (py_sum standings.*2) (of_int (Z.of_nat (length standings))).

(** [main], auto update.  [game_exists]: the [any(...)] over the session's
    game history; of a scraped game the loop reads the two ids and the two
    scores, which is what a [GameResult] holds. *)
Definition same_game (g : GameRecord T) (game : GameResult) : bool :=
  bool_decide (home g = res_home game)
  && bool_decide (away g = res_away game)
  && bool_decide (home_score g = res_home_score game)
  && bool_decide (away_score g = res_away_score game).

Definition game_exists (history : list (GameRecord T)) (game : GameResult)
    : bool :=
  existsb (λ g, same_game g game) history.

(** The loop [for game in new_games], on heap, engine, the session's game
    history and [added_count]; each game comes with the clock reading that
    [play_game] gets if the game is played. *)
Fixpoint add_new_games (h : gmap loc (gmap string T)) (self : RatingSystem T)
    (history : list (GameRecord T)) (added_count : nat)
    (new_games : list (string * GameResult))
    : option (gmap loc (gmap string T) * RatingSystem T
              * list (GameRecord T) * nat) :=
  match new_games with
  | [] => Some (h, self, history, added_count)
  | (now, game) :: rest =>
      if game_exists history game
      then add_new_games h self history added_count rest
      else
        x ← play_game h self now (res_home game) (res_away game)
               (res_home_score game) (res_away_score game);
        add_new_games x.1.1 x.1.2 (history ++ [x.2]) (S added_count) rest
  end.

(** [main], manual entry: the game of the form is played and its record
    appended to the session's game history, without a look at the history. *)
Definition add_manual_game (h : gmap loc (gmap string T))
    (self : RatingSystem T) (history : list (GameRecord T)) (now : string)
    (game : GameResult)
    : option (gmap loc (gmap string T) * RatingSystem T
              * list (GameRecord T)) :=
  x ← play_game h self now (res_home game) (res_away game)
         (res_home_score game) (res_away_score game);
  Some (x.1.1, x.1.2, history ++ [x.2]).

End dashboard.

(** ** What one call does, for every arithmetic *)

Section engine_facts.
Context {T : Type} `{Arith T}.

Implicit Types (h : gmap loc (gmap string T)) (self : RatingSystem T).
Implicit Types (m : gmap string T) (l : loc).

Lemma deref_insert_eq h l m : deref (<[l := m]> h) l = m.
Proof. unfold deref. by rewrite lookup_insert_eq. Qed.

Lemma deref_insert_ne h l l' m : l ≠ l' → deref (<[l := m]> h) l' = deref h l'.
Proof. intros ?. unfold deref. by rewrite lookup_insert_ne. Qed.

Lemma deref_setitem_eq h l key v :
  deref (dict_setitem h l key v) l = <[key := v]> (deref h l).
Proof. apply deref_insert_eq. Qed.

Lemma setitem_setitem h l k1 v1 k2 v2 :
  dict_setitem (dict_setitem h l k1 v1) l k2 v2
  = <[l := <[k2 := v2]> (<[k1 := v1]> (deref h l))]> h.
Proof.
  unfold dict_setitem at 1. rewrite deref_setitem_eq.
  unfold dict_setitem. by rewrite insert_insert_eq.
Qed.

(** [play_game] has no failing path: both subscripts read keys that the
    two assignments have just written.  What it returns, in closed form. *)
Lemma play_game_eq h self now home_ away_ hs as_ :
  let home_rating := dict_get h (ratings self) home_ zero in
  let away_rating := dict_get h (ratings self) away_ zero in
  let exp_mov := expected_mov self home_rating away_rating in
  let dr := delta_rating self (hs - as_) exp_mov in
  let r :=
    {| timestamp := now;
       home := home_;
       away := away_;
       home_score := hs;
       away_score := as_;
       home_rating_before := home_rating;
       away_rating_before := away_rating;
       home_rating_after :=
         if decide (home_ = away_) then sub away_rating dr
         else add home_rating dr;
       away_rating_after := sub away_rating dr;
       expected_mov_ := exp_mov;
       actual_mov_ := hs - as_;
       delta_rating_ := dr;
       home_team_full := default home_ (team_mapping self !! home_);
       away_team_full := default away_ (team_mapping self !! away_) |} in
  play_game h self now home_ away_ hs as_
  = Some (<[ratings self :=
              <[away_ := sub away_rating dr]>
                (<[home_ := add home_rating dr]> (rating_map h self))]> h,
          {| ratings := ratings self;
             team_mapping := team_mapping self;
             k := k self;
             home_adv := home_adv self;
             game_history := game_history self ++ [r] |},
          r).
Proof.
  cbv zeta. unfold play_game, rating_map.
  rewrite setitem_setitem. unfold dict_getitem. rewrite deref_insert_eq.
  rewrite lookup_insert_eq. rewrite lookup_insert. cbn.
  destruct (decide (away_ = home_)) as [->|Hne]; cbn.
  - by rewrite decide_True.
  - rewrite lookup_insert_eq. cbn. by rewrite decide_False by congruence.
Qed.

End engine_facts.

(** Inversion of a successful call into the closed form. *)
Ltac play_game_closed Hplay :=
  let E := fresh "E" in
  lazymatch type of Hplay with
  | play_game ?h ?self ?now ?hm ?aw ?hs ?as_ = _ =>
      pose proof (play_game_eq h self now hm aw hs as_) as E
  end;
  cbv zeta in E; rewrite E in Hplay; clear E.

Ltac play_game_inv Hplay :=
  play_game_closed Hplay;
  first [ discriminate Hplay | injection Hplay as <- <- <- ].

Section engine_runs.
Context {T : Type} `{Arith T}.

Implicit Types (h : gmap loc (gmap string T)) (self : RatingSystem T).
Implicit Types (m : gmap string T) (l : loc).

Lemma rating_map_play_game h self now home_ away_ hs as_ h' self' r :
  play_game h self now home_ away_ hs as_ = Some (h', self', r) →
  rating_map h' self'
  = <[away_ := sub (away_rating_before r) (delta_rating_ r)]>
      (<[home_ := add (home_rating_before r) (delta_rating_ r)]>
         (rating_map h self)).
Proof.
  intros Hplay. play_game_inv Hplay. apply deref_insert_eq.
Qed.

Lemma dict_get_rating_map h self key :
  dict_get h (ratings self) key zero = default zero (rating_map h self !! key).
Proof. reflexivity. Qed.

Lemma rating_map_insert_upd h l tm k_ ha log m :
  rating_map (<[l := m]> h) (mkRatingSystem l tm k_ ha log) = m.
Proof. apply deref_insert_eq. Qed.

Lemma play_games_total h self games : is_Some (play_games h self games).
Proof.
  revert h self. induction games as [|[now g] rest IH]; intros h self; cbn.
  - by eexists.
  - pose proof (play_game_eq h self now (res_home g) (res_away g)
      (res_home_score g) (res_away_score g)) as E.
    cbv zeta in E. rewrite E. cbn. apply IH.
Qed.

(** What the constructor leaves in the engine. *)
Lemma rating_map_init h arg tm k_arg ha_arg :
  rating_map (init h arg tm k_arg ha_arg).1 (init h arg tm k_arg ha_arg).2
  = initial_contents h arg.
Proof.
  unfold init, new_dict, rating_map, initial_contents.
  destruct arg as [l|]; [case_decide as Hl|]; cbn;
    rewrite ?deref_insert_eq; done.
Qed.

Lemma init_fields h arg tm k_arg ha_arg :
  let e := (init h arg tm k_arg ha_arg).2 in
  team_mapping e = default ∅ tm ∧ k e = default (lit 5 2) k_arg ∧
  home_adv e = default (lit 22 1) ha_arg ∧ game_history e = [].
Proof.
  unfold init. destruct arg as [l|]; [case_decide|]; cbn; done.
Qed.

(** A non-empty dict handed to the constructor is kept, not copied. *)
Lemma init_keeps_dict h l tm k_arg ha_arg :
  deref h l ≠ ∅ →
  (init h (Some l) tm k_arg ha_arg).1 = h ∧
  ratings (init h (Some l) tm k_arg ha_arg).2 = l.
Proof. intros Hl. unfold init. by rewrite decide_False. Qed.

(** Two engines that agree on the rating map and on the two parameters
    answer the same call alike: clocks, other objects of the heap, display
    names and earlier history do not enter the computation. *)
Lemma play_game_sim h1 e1 h2 e2 now1 now2 home_ away_ hs as_
    h1' e1' r1 h2' e2' r2 :
  rating_map h1 e1 = rating_map h2 e2 →
  k e1 = k e2 → home_adv e1 = home_adv e2 →
  play_game h1 e1 now1 home_ away_ hs as_ = Some (h1', e1', r1) →
  play_game h2 e2 now2 home_ away_ hs as_ = Some (h2', e2', r2) →
  rating_map h1' e1' = rating_map h2' e2' ∧
  k e1' = k e2' ∧ home_adv e1' = home_adv e2' ∧
  team_mapping e1' = team_mapping e1 ∧ team_mapping e2' = team_mapping e2 ∧
  game_history e1' = game_history e1 ++ [r1] ∧
  game_history e2' = game_history e2 ++ [r2] ∧
  erase_names (erase_timestamp r1) = erase_names (erase_timestamp r2) ∧
  (team_mapping e1 = team_mapping e2 →
   erase_timestamp r1 = erase_timestamp r2) ∧
  result_of_record r1 = mkGameResult home_ away_ hs as_.
Proof.
  intros Hm Hk Ha P1 P2. play_game_inv P1. play_game_inv P2.
  rewrite !dict_get_rating_map, !rating_map_insert_upd.
  unfold expected_mov, delta_rating, erase_names, erase_timestamp,
    result_of_record. cbn.
  rewrite Hm, Hk, Ha. repeat split; try done.
  by intros ->.
Qed.

Lemma play_games_sim games1 : ∀ games2 h1 e1 h2 e2,
  games1.*2 = games2.*2 →
  rating_map h1 e1 = rating_map h2 e2 →
  k e1 = k e2 → home_adv e1 = home_adv e2 →
  ∃ h1' e1' h2' e2' log1 log2,
    play_games h1 e1 games1 = Some (h1', e1') ∧
    play_games h2 e2 games2 = Some (h2', e2') ∧
    rating_map h1' e1' = rating_map h2' e2' ∧
    game_history e1' = game_history e1 ++ log1 ∧
    game_history e2' = game_history e2 ++ log2 ∧
    erase_names <$> (erase_timestamp <$> log1)
    = erase_names <$> (erase_timestamp <$> log2) ∧
    (team_mapping e1 = team_mapping e2 →
     erase_timestamp <$> log1 = erase_timestamp <$> log2) ∧
    result_of_record <$> log1 = games1.*2.
Proof.
  induction games1 as [|[now1 g] rest1 IH];
    intros [|[now2 g2] rest2] h1 e1 h2 e2 Hg Hm Hk Ha; try discriminate.
  - exists h1, e1, h2, e2, [], []. by rewrite !app_nil_r.
  - cbn in Hg. injection Hg as <- Hrest. cbn [play_games].
    destruct (play_game h1 e1 now1 (res_home g) (res_away g)
      (res_home_score g) (res_away_score g)) as [[[h1a e1a] r1]|] eqn:P1;
      [|play_game_inv P1].
    destruct (play_game h2 e2 now2 (res_home g) (res_away g)
      (res_home_score g) (res_away_score g)) as [[[h2a e2a] r2]|] eqn:P2;
      [|play_game_inv P2].
    destruct (play_game_sim _ _ _ _ _ _ _ _ _ _ _ _ _ _ _ _ Hm Hk Ha P1 P2)
      as (Hm' & Hk' & Ha' & Ht1 & Ht2 & Hl1 & Hl2 & Hr & Hrt & Hres).
    destruct (IH rest2 h1a e1a h2a e2a Hrest Hm' Hk' Ha')
      as (h1' & e1' & h2' & e2' & log1 & log2 & Q1 & Q2 & Hmf & L1 & L2
          & Hlog & Hlogt & Hin).
    exists h1', e1', h2', e2', (r1 :: log1), (r2 :: log2). cbn.
    rewrite Q1, Q2, L1, L2, Hl1, Hl2, Hr, Hlog, Hin, Hres, <- !app_assoc.
    repeat split; try done.
    + intros Ht. rewrite Hrt by done. rewrite Hlogt; [done|congruence].
    + by destruct g.
Qed.

(** A call writes to the engine's own dict and to no other object. *)
Lemma play_game_frame h self now home_ away_ hs as_ h' self' r l :
  play_game h self now home_ away_ hs as_ = Some (h', self', r) →
  ratings self' = ratings self ∧
  (l ≠ ratings self → deref h' l = deref h l).
Proof.
  intros Hplay. play_game_inv Hplay. split; [done|].
  intros Hl. by rewrite deref_insert_ne.
Qed.

(** The dict the constructor makes for [None] or [{}] is a new object. *)
Lemma init_new_dict h arg tm k_arg ha_arg :
  initial_contents h arg = ∅ →
  ratings (init h arg tm k_arg ha_arg).2 ∉ dom h.
Proof.
  unfold init, initial_contents, new_dict. intros Harg.
  destruct arg as [l|]; [rewrite decide_True by done|]; cbn; apply is_fresh.
Qed.

(** One call, with what it leaves in the engine. *)
Lemma play_game_step h self now home_ away_ hs as_ :
  ∃ h' self' r,
    play_game h self now home_ away_ hs as_ = Some (h', self', r) ∧
    k self' = k self ∧ home_adv self' = home_adv self ∧
    home_rating_before r = default zero (rating_map h self !! home_) ∧
    away_rating_before r = default zero (rating_map h self !! away_) ∧
    expected_mov_ r
    = sub (add (home_rating_before r) (home_adv self)) (away_rating_before r) ∧
    actual_mov_ r = (hs - as_)%Z ∧
    delta_rating_ r
    = mul (k self) (sub (of_int (hs - as_)) (expected_mov_ r)) ∧
    rating_map h' self'
    = <[away_ := sub (away_rating_before r) (delta_rating_ r)]>
        (<[home_ := add (home_rating_before r) (delta_rating_ r)]>
           (rating_map h self)) ∧
    rating_map h' self' !! home_ = Some (home_rating_after r) ∧
    rating_map h' self' !! away_ = Some (away_rating_after r).
Proof.
  pose proof (play_game_eq h self now home_ away_ hs as_) as E.
  cbv zeta in E. rewrite E. clear E.
  eexists _, _, _. split; [reflexivity|]. cbn.
  rewrite rating_map_insert_upd, lookup_insert_eq.
  repeat split; try done.
  rewrite lookup_insert. case_decide as Hd.
  - by rewrite decide_True.
  - rewrite lookup_insert_eq. by rewrite decide_False by congruence.
Qed.

(** X13.  A non-empty dict handed to the constructor is the dict the engine
    writes to: the caller's initial ratings change with every game. *)
Lemma init_shares_nonempty_dict h l tm k_arg ha_arg now home_ away_ hs as_ :
  deref h l ≠ ∅ →
  ∃ h' self' r,
    play_game (init h (Some l) tm k_arg ha_arg).1
      (init h (Some l) tm k_arg ha_arg).2 now home_ away_ hs as_
    = Some (h', self', r) ∧
    deref h' l = rating_map h' self' ∧
    deref h' l
    = <[away_ := sub (away_rating_before r) (delta_rating_ r)]>
        (<[home_ := add (home_rating_before r) (delta_rating_ r)]>
           (deref h l)).
Proof.
  intros Hl. destruct (init_keeps_dict h l tm k_arg ha_arg Hl) as [Hh Hr].
  destruct (play_game_step (init h (Some l) tm k_arg ha_arg).1
              (init h (Some l) tm k_arg ha_arg).2 now home_ away_ hs as_)
    as (h' & self' & r & P & _ & _ & _ & _ & _ & _ & _ & Hm & _).
  exists h', self', r. split; [done|].
  assert (ratings self' = l) as Hl'.
  { pose proof P as P'. play_game_inv P'. done. }
  unfold rating_map in *. rewrite Hl' in Hm |- *. by rewrite Hm, Hr, Hh.
Qed.

(** *** The update rule *)

(** C1, as the code has it.  A call computes
    [expected = home_before + home_adv - away_before],
    [actual = home_score - away_score] and
    [delta = k * (actual - expected)], and assigns
    [ratings[home] = home_before + delta] and then
    [ratings[away] = away_before - delta].  After the call the away id is
    rated [away_before - delta]; the home id is rated [home_before + delta]
    whenever the two ids differ; no other id is touched. *)
Theorem play_game_rating_update h self now home_ away_ hs as_ :
  let home_before := default zero (rating_map h self !! home_) in
  let away_before := default zero (rating_map h self !! away_) in
  let expected := sub (add home_before (home_adv self)) away_before in
  let actual := (hs - as_)%Z in
  let delta := mul (k self) (sub (of_int actual) expected) in
  ∃ h' self' r,
    play_game h self now home_ away_ hs as_ = Some (h', self', r) ∧
    home_rating_before r = home_before ∧
    away_rating_before r = away_before ∧
    expected_mov_ r = expected ∧
    actual_mov_ r = actual ∧
    delta_rating_ r = delta ∧
    rating_map h' self'
    = <[away_ := sub away_before delta]>
        (<[home_ := add home_before delta]> (rating_map h self)) ∧
    rating_map h' self' !! away_ = Some (sub away_before delta) ∧
    (home_ ≠ away_ →
     rating_map h' self' !! home_ = Some (add home_before delta)) ∧
    (∀ team, team ≠ home_ → team ≠ away_ →
     rating_map h' self' !! team = rating_map h self !! team).
Proof.
  cbv zeta.
  pose proof (play_game_eq h self now home_ away_ hs as_) as E.
  cbv zeta in E. rewrite E. clear E.
  eexists _, _, _. split; [reflexivity|]. cbn.
  rewrite rating_map_insert_upd, !dict_get_rating_map.
  unfold expected_mov, delta_rating.
  repeat split; try done.
  - by rewrite lookup_insert_eq.
  - intros Hne. rewrite lookup_insert_ne by done. by rewrite lookup_insert_eq.
  - intros team Hh Ha. by rewrite !lookup_insert_ne.
Qed.

(** C3, as the code has it.  The record a call returns is the one it
    appends to the log; in it [away_rating_after = away_rating_before -
    delta_rating] always, and [home_rating_after = home_rating_before +
    delta_rating] whenever the two ids differ.  (When they coincide, the
    record reads the rating back after both assignments.) *)
Theorem play_game_record_transfer h self now home_ away_ hs as_ :
  ∃ h' self' r,
    play_game h self now home_ away_ hs as_ = Some (h', self', r) ∧
    game_history self' = game_history self ++ [r] ∧
    away_rating_after r = sub (away_rating_before r) (delta_rating_ r) ∧
    (home_ ≠ away_ →
     home_rating_after r = add (home_rating_before r) (delta_rating_ r)).
Proof.
  pose proof (play_game_eq h self now home_ away_ hs as_) as E.
  cbv zeta in E. rewrite E. clear E.
  eexists _, _, _. split; [reflexivity|]. cbn.
  repeat split. intros Hne. by rewrite decide_False.
Qed.

(** *** Unknown ids *)

(** C9.  [get_team_rating] returns the stored rating, or [0.0] for an id
    that is not in the map, and leaves heap and engine as they were.
    [play_game] returns for every pair of ids: an id that is not in the map
    enters the computation as [0.0], and both ids are in the map after the
    call. *)
Theorem unknown_ids_default_to_zero h self team now home_ away_ hs as_ :
  let m := rating_map h self in
  get_team_rating h self team = (h, self, default zero (m !! team)) ∧
  (m !! team = None → (get_team_rating h self team).2 = zero) ∧
  (∀ x, m !! team = Some x → (get_team_rating h self team).2 = x) ∧
  ∃ h' self' r,
    play_game h self now home_ away_ hs as_ = Some (h', self', r) ∧
    home_rating_before r = default zero (m !! home_) ∧
    away_rating_before r = default zero (m !! away_) ∧
    is_Some (rating_map h' self' !! home_) ∧
    is_Some (rating_map h' self' !! away_).
Proof.
  cbv zeta. unfold get_team_rating. rewrite dict_get_rating_map.
  split; [done|]. split; [by intros ->|]. split; [by intros x ->|].
  pose proof (play_game_eq h self now home_ away_ hs as_) as E.
  cbv zeta in E. rewrite E. clear E.
  eexists _, _, _. split; [reflexivity|]. cbn.
  rewrite rating_map_insert_upd, !dict_get_rating_map.
  repeat split; try done.
  - rewrite lookup_insert. case_decide; [done|].
    rewrite lookup_insert_eq. done.
  - by rewrite lookup_insert_eq.
Qed.

(** *** Replay and determinism *)

(** C6.  Let an engine be built from initial ratings and parameters, and
    let a sequence of games be played on it.  A second engine built from
    initial ratings with the same contents and from the same parameters,
    to which the logged records are replayed in log order (ids and scores
    of each record, under any clock), ends with the same rating map. *)
Theorem replay_reproduces_ratings
    h0 arg tm k_arg ha_arg games h1 e1 h0' arg' tm' (clock : list string) :
  play_games (init h0 arg tm k_arg ha_arg).1 (init h0 arg tm k_arg ha_arg).2
    games = Some (h1, e1) →
  initial_contents h0' arg' = initial_contents h0 arg →
  length clock = length (game_history e1) →
  ∃ h2 e2,
    play_games (init h0' arg' tm' k_arg ha_arg).1
      (init h0' arg' tm' k_arg ha_arg).2
      (zip clock (result_of_record <$> game_history e1)) = Some (h2, e2) ∧
    rating_map h2 e2 = rating_map h1 e1.
Proof.
  intros Hrun Hinit Hclock.
  set (s1 := init h0 arg tm k_arg ha_arg) in *.
  set (s2 := init h0' arg' tm' k_arg ha_arg).
  destruct (init_fields h0 arg tm k_arg ha_arg) as (_ & Hk1 & Ha1 & Hlog1).
  destruct (init_fields h0' arg' tm' k_arg ha_arg) as (_ & Hk2 & Ha2 & _).
  fold s1 in Hk1, Ha1, Hlog1. fold s2 in Hk2, Ha2.
  destruct (play_games_sim games games s1.1 s1.2 s1.1 s1.2)
    as (ha & ea & _ & _ & log & _ & Q & _ & _ & L & _ & _ & _ & Hres);
    try done.
  rewrite Hrun in Q. injection Q as <- <-.
  rewrite Hlog1 in L. cbn in L. rewrite L in Hclock |- *.
  destruct (play_games_sim games (zip clock (result_of_record <$> log))
              s1.1 s1.2 s2.1 s2.2)
    as (hb & eb & h2 & e2 & _ & _ & Q1 & Q2 & Hm & _); try congruence.
  - rewrite snd_zip; [done|]. rewrite length_fmap. lia.
  - unfold s1, s2. by rewrite !rating_map_init.
  - rewrite Hrun in Q1. injection Q1 as <- <-. by exists h2, e2.
Qed.

(** C7.  Two engines built from initial ratings with the same contents and
    from the same parameters, and fed the same games in the same order,
    end with the same rating map and with logs that agree in every field
    but the timestamps and the display names; with the same team mapping
    the logs agree in every field but the timestamps. *)
Theorem two_runs_agree h1 arg1 tm1 h2 arg2 tm2 k_arg ha_arg
    (games1 games2 : list (string * GameResult)) :
  initial_contents h1 arg1 = initial_contents h2 arg2 →
  games1.*2 = games2.*2 →
  ∃ h1' e1' h2' e2',
    play_games (init h1 arg1 tm1 k_arg ha_arg).1
      (init h1 arg1 tm1 k_arg ha_arg).2 games1 = Some (h1', e1') ∧
    play_games (init h2 arg2 tm2 k_arg ha_arg).1
      (init h2 arg2 tm2 k_arg ha_arg).2 games2 = Some (h2', e2') ∧
    rating_map h1' e1' = rating_map h2' e2' ∧
    erase_names <$> (erase_timestamp <$> game_history e1')
    = erase_names <$> (erase_timestamp <$> game_history e2') ∧
    (tm1 = tm2 →
     erase_timestamp <$> game_history e1'
     = erase_timestamp <$> game_history e2').
Proof.
  intros Hinit Hgames.
  set (s1 := init h1 arg1 tm1 k_arg ha_arg).
  set (s2 := init h2 arg2 tm2 k_arg ha_arg).
  destruct (init_fields h1 arg1 tm1 k_arg ha_arg) as (Ht1 & Hk1 & Ha1 & Hl1).
  destruct (init_fields h2 arg2 tm2 k_arg ha_arg) as (Ht2 & Hk2 & Ha2 & Hl2).
  fold s1 in Ht1, Hk1, Ha1, Hl1. fold s2 in Ht2, Hk2, Ha2, Hl2.
  destruct (play_games_sim games1 games2 s1.1 s1.2 s2.1 s2.2)
    as (h1' & e1' & h2' & e2' & log1 & log2 & Q1 & Q2 & Hm & L1 & L2
        & Hlog & Hlogt & _); try congruence.
  - unfold s1, s2. by rewrite !rating_map_init.
  - exists h1', e1', h2', e2'. rewrite L1, L2, Hl1, Hl2. cbn.
    repeat split; try done.
    intros ->. apply Hlogt. congruence.
Qed.

End engine_runs.

(** ** Exact arithmetic *)

(** Projections of [R_arith] back to the operations of [R]. *)
Ltac to_R :=
  change (@add R R_arith) with Rplus in *;
  change (@sub R R_arith) with Rminus in *;
  change (@mul R R_arith) with Rmult in *;
  change (@div R R_arith) with Rdiv in *;
  change (@opp R R_arith) with Ropp in *;
  change (@zero R R_arith) with 0%R in *;
  change (@of_int R R_arith) with IZR in *;
  change (@exp_ R R_arith R_exp) with exp in *.

Section exact.
Open Scope R_scope.

Implicit Types (h : gmap loc (gmap string R)) (self : RatingSystem R).
Implicit Types (m : gmap string R).

Lemma sum_ratings_empty : sum_ratings (∅ : gmap string R) = 0.
Proof. unfold sum_ratings. by rewrite map_fold_empty. Qed.

Lemma sum_ratings_insert_fresh m i x :
  m !! i = None → sum_ratings (<[i := x]> m) = x + sum_ratings m.
Proof.
  intros Hi. unfold sum_ratings. rewrite map_fold_insert_L; [done| |done].
  intros. to_R. lra.
Qed.

Lemma sum_ratings_insert m i x :
  sum_ratings (<[i := x]> m) = x - default 0 (m !! i) + sum_ratings m.
Proof.
  destruct (m !! i) as [y|] eqn:Hi; cbn.
  - rewrite <- (insert_delete_eq m), sum_ratings_insert_fresh
      by apply lookup_delete_eq.
    rewrite <- (insert_delete_id m i y) at 2 by done.
    rewrite sum_ratings_insert_fresh by apply lookup_delete_eq. lra.
  - rewrite sum_ratings_insert_fresh by done. lra.
Qed.

(** One game between two different teams moves [delta] from one to the
    other. *)
Lemma sum_ratings_play_game h self now home_ away_ hs as_ h' self' r :
  home_ ≠ away_ →
  play_game h self now home_ away_ hs as_ = Some (h', self', r) →
  sum_ratings (rating_map h' self') = sum_ratings (rating_map h self).
Proof.
  intros Hne Hplay. rewrite (rating_map_play_game _ _ _ _ _ _ _ _ _ _ Hplay).
  play_game_inv Hplay. cbn [home_rating_before away_rating_before delta_rating_].
  rewrite !sum_ratings_insert, lookup_insert_ne by done.
  unfold dict_get, rating_map. to_R. lra.
Qed.

(** *** Zero sum *)

(** C2, as the code has it.  In exact arithmetic, over any sequence of
    games in each of which the home id and the away id differ, from any
    heap and any engine, the sum of the ratings in the map is the same
    after as before. *)
Theorem ratings_sum_preserved h self (games : list (string * GameResult)) :
  Forall (λ g, res_home g.2 ≠ res_away g.2) games →
  ∃ h' self',
    play_games h self games = Some (h', self') ∧
    sum_ratings (rating_map h' self') = sum_ratings (rating_map h self).
Proof.
  intros Hgames. revert h self.
  induction Hgames as [|[now g] rest Hg _ IH]; intros h self; cbn [play_games].
  - by exists h, self.
  - destruct (play_game h self now (res_home g) (res_away g)
      (res_home_score g) (res_away_score g)) as [[[h1 e1] r]|] eqn:P;
      [|play_game_inv P].
    cbn. destruct (IH h1 e1) as (h' & self' & Q & Hsum).
    exists h', self'. split; [done|].
    rewrite Hsum. by eapply sum_ratings_play_game.
Qed.

(** *** A team against itself *)

(** In exact arithmetic: in a call with the same id [x] on both sides,
    [expected] is the home advantage and
    [delta = k * ((home_score - away_score) - home_adv)]; [x] ends at
    [r - delta], which is neither [r] nor [r + delta] unless [delta] is
    zero; and the sum of the ratings drops by [delta]. *)
Lemma self_play_exact h self now x hs as_ :
  let r := default 0 (rating_map h self !! x) in
  let delta := k self * (IZR (hs - as_) - home_adv self) in
  ∃ h' self' rec,
    play_game h self now x x hs as_ = Some (h', self', rec) ∧
    delta_rating_ rec = delta ∧
    rating_map h' self' = <[x := r - delta]> (rating_map h self) ∧
    rating_map h' self' !! x = Some (r - delta) ∧
    (delta ≠ 0 → r - delta ≠ r ∧ r - delta ≠ r + delta) ∧
    home_rating_before rec = r ∧ away_rating_before rec = r ∧
    home_rating_after rec = r - delta ∧ away_rating_after rec = r - delta ∧
    sum_ratings (rating_map h' self')
    = sum_ratings (rating_map h self) - delta.
Proof.
  cbv zeta.
  pose proof (play_game_eq h self now x x hs as_) as E.
  cbv zeta in E. rewrite E. clear E.
  eexists _, _, _. split; [reflexivity|].
  cbn [delta_rating_ home_rating_before away_rating_before
       home_rating_after away_rating_after].
  rewrite rating_map_insert_upd, insert_insert_eq, decide_True by done.
  unfold delta_rating, expected_mov, dict_get. fold (rating_map h self).
  to_R. set (r := default 0 (rating_map h self !! x)).
  assert (r + home_adv self - r = home_adv self) as -> by lra.
  repeat split; try done.
  - by rewrite lookup_insert_eq.
  - lra.
  - lra.
  - rewrite sum_ratings_insert. fold r. lra.
Qed.

(** *** Home advantage *)

(** C8.  With the two ratings, [k] and the actual margin fixed, a larger
    home advantage gives a strictly larger expected margin, and for a
    positive [k] a strictly smaller delta. *)
Theorem home_advantage_monotone self1 self2 home_rating away_rating actual :
  k self1 = k self2 →
  home_adv self1 < home_adv self2 →
  expected_mov self1 home_rating away_rating
  < expected_mov self2 home_rating away_rating ∧
  (0 < k self1 →
   delta_rating self2 actual (expected_mov self2 home_rating away_rating)
   < delta_rating self1 actual (expected_mov self1 home_rating away_rating)).
Proof.
  intros Hk Ha. unfold expected_mov, delta_rating. to_R. rewrite <- Hk.
  split; [lra|]. intros Hpos. apply Rmult_lt_compat_l; lra.
Qed.

(** *** Prediction *)

Lemma _mov_to_probability_eq (mov : R) :
  _mov_to_probability mov = 1 / (1 + exp (- mov / 10)).
Proof. reflexivity. Qed.

Lemma _mov_to_probability_increasing (x y : R) :
  x < y → _mov_to_probability x < _mov_to_probability y.
Proof.
  intros Hxy. rewrite !_mov_to_probability_eq.
  pose proof (exp_pos (- x / 10)). pose proof (exp_pos (- y / 10)).
  assert (exp (- y / 10) < exp (- x / 10)) by (apply exp_increasing; lra).
  unfold Rdiv at 1 3. rewrite !Rmult_1_l.
  apply Rinv_lt_contravar; [apply Rmult_lt_0_compat|]; lra.
Qed.

(** In exact arithmetic: [predict_game] returns heap and engine as it found
    them, with the expected margin [home_rating + home_adv - away_rating]
    over ratings that default to [0.0] (the margin [play_game] puts in its
    record for the same ids) and the probability
    [1 / (1 + exp (- expected / 10))]; the probability of margin [0] is
    [1/2], and the probability is strictly increasing in the margin. *)
Lemma predict_game_logistic h self home_ away_ :
  let home_rating := default 0 (rating_map h self !! home_) in
  let away_rating := default 0 (rating_map h self !! away_) in
  let expected := home_rating + home_adv self - away_rating in
  (∃ p,
     predict_game h self home_ away_ = (h, self, p) ∧
     pred_home_rating p = home_rating ∧
     pred_away_rating p = away_rating ∧
     pred_expected_mov p = expected ∧
     pred_home_win_probability p = 1 / (1 + exp (- expected / 10)) ∧
     ∀ now hs as_, ∃ h' self' r,
       play_game h self now home_ away_ hs as_ = Some (h', self', r) ∧
       expected_mov_ r = pred_expected_mov p) ∧
  _mov_to_probability 0 = 1 / 2 ∧
  (∀ x y : R, x < y → _mov_to_probability x < _mov_to_probability y).
Proof.
  cbv zeta. split; [|split].
  - eexists. split; [reflexivity|]. cbn.
    repeat split.
    intros now hs as_.
    pose proof (play_game_eq h self now home_ away_ hs as_) as E.
    cbv zeta in E. rewrite E. by eexists _, _, _.
  - rewrite _mov_to_probability_eq.
    replace (- 0 / 10) with 0 by lra. rewrite exp_0. lra.
  - apply _mov_to_probability_increasing.
Qed.

(** *** The engine with no initial ratings and the default parameters *)

Lemma default_engine :
  let s0 := init (T := R) ∅ None None None None in
  k s0.2 = 0.05%R ∧ home_adv s0.2 = 2.2%R ∧ rating_map s0.1 s0.2 = ∅.
Proof.
  cbv zeta. split; [|split].
  - cbn. unfold lit. to_R. change (10 ^ Z.of_nat 2)%Z with 100%Z. lra.
  - cbn. unfold lit. to_R. change (10 ^ Z.of_nat 1)%Z with 10%Z. lra.
  - apply (rating_map_init ∅ None None None None).
Qed.

(** A 90 - 85 A on that engine: both before-ratings are 0, [delta] is 0.14
    and A ends at -0.14. *)
Lemma default_engine_self_game :
  let s0 := init (T := R) ∅ None None None None in
  ∃ h' self' r,
    play_game s0.1 s0.2 "t" "A" "A" 90 85 = Some (h', self', r) ∧
    home_rating_before r = 0%R ∧ delta_rating_ r = 0.14%R ∧
    home_rating_after r = (-0.14)%R ∧
    rating_map h' self' = <["A" := (-0.14)%R]> ∅.
Proof.
  cbv zeta. destruct default_engine as (Hk & Ha & Hm).
  destruct (play_game_step (init (T := R) ∅ None None None None).1
              (init (T := R) ∅ None None None None).2 "t" "A" "A" 90 85)
    as (h' & self' & r & P & _ & _ & Hb & Hb' & He & _ & Hd & Hm' & Hafter & _).
  rewrite Hm in Hb, Hb', Hm'. rewrite lookup_empty in Hb, Hb'.
  cbn in Hb, Hb'. to_R.
  assert (delta_rating_ r = 0.14%R) as Hd'.
  { rewrite Hd, He, Hk, Ha, Hb, Hb'. change (90 - 85)%Z with 5%Z. lra. }
  rewrite insert_insert_eq, Hb', Hd' in Hm'.
  replace (0 - 0.14)%R with (-0.14)%R in Hm' by lra.
  rewrite Hm', lookup_insert_eq in Hafter. injection Hafter as Hafter.
  by exists h', self', r.
Qed.

(** *** The two games of the scenario *)

(** In exact arithmetic: on an engine built with no initial ratings and
    the default parameters [k = 0.05] and [home_adv = 2.2], the game
    A 90 - 85 B has expected margin [2.2], actual margin [5] and delta
    [0.14], and leaves A at [0.14] and B at [-0.14]; the game B 80 - 100 A
    that follows has expected margin [1.92], actual margin [-20] and delta
    [-1.096], and leaves B at [-1.236] and A at [1.236]. *)
Lemma scenario_two_games_exact (now1 now2 : string) :
  let s0 := init (T := R) ∅ None None None None in
  ∃ h1 e1 r1 h2 e2 r2,
    k s0.2 = 0.05 ∧ home_adv s0.2 = 2.2 ∧ rating_map s0.1 s0.2 = ∅ ∧
    play_game s0.1 s0.2 now1 "A" "B" 90 85 = Some (h1, e1, r1) ∧
    home_rating_before r1 = 0 ∧ away_rating_before r1 = 0 ∧
    expected_mov_ r1 = 2.2 ∧ actual_mov_ r1 = 5%Z ∧ delta_rating_ r1 = 0.14 ∧
    rating_map h1 e1 !! "A" = Some 0.14 ∧
    rating_map h1 e1 !! "B" = Some (-0.14) ∧
    play_game h1 e1 now2 "B" "A" 80 100 = Some (h2, e2, r2) ∧
    home_rating_before r2 = -0.14 ∧ away_rating_before r2 = 0.14 ∧
    expected_mov_ r2 = 1.92 ∧ actual_mov_ r2 = (-20)%Z ∧
    delta_rating_ r2 = -1.096 ∧
    rating_map h2 e2 !! "B" = Some (-1.236) ∧
    rating_map h2 e2 !! "A" = Some 1.236.
Proof.
  cbv zeta. destruct default_engine as (Hk0 & Ha0 & Hm0).
  set (s0 := init ∅ None None None None) in *.
  destruct (play_game_step s0.1 s0.2 now1 "A" "B" 90 85)
    as (h1 & e1 & r1 & P1 & Hk1 & Ha1 & Hb1 & Hb1' & He1 & Hact1 & Hd1 & Hm1
        & _).
  destruct (play_game_step h1 e1 now2 "B" "A" 80 100)
    as (h2 & e2 & r2 & P2 & Hk2 & Ha2 & Hb2 & Hb2' & He2 & Hact2 & Hd2 & Hm2
        & _).
  rewrite Hm0 in Hb1, Hb1', Hm1. rewrite lookup_empty in Hb1, Hb1'.
  cbn in Hb1, Hb1'. to_R.
  assert (expected_mov_ r1 = 2.2) as He1' by (rewrite He1; lra).
  assert (delta_rating_ r1 = 0.14) as Hd1'.
  { rewrite Hd1, He1', Hk0. change (90 - 85)%Z with 5%Z. lra. }
  rewrite Hb1, Hb1', Hd1' in Hm1.
  assert (rating_map h1 e1 !! "A" = Some 0.14) as HA1.
  { rewrite Hm1, lookup_insert_ne, lookup_insert_eq by done. f_equal. lra. }
  assert (rating_map h1 e1 !! "B" = Some (-0.14)) as HB1.
  { rewrite Hm1, lookup_insert_eq. f_equal. lra. }
  rewrite HB1 in Hb2. rewrite HA1 in Hb2'. cbn in Hb2, Hb2'.
  assert (expected_mov_ r2 = 1.92) as He2' by (rewrite He2; lra).
  assert (delta_rating_ r2 = -1.096) as Hd2'.
  { rewrite Hd2, He2', Hk1, Hk0. change (80 - 100)%Z with (-20)%Z. lra. }
  exists h1, e1, r1, h2, e2, r2.
  repeat split; try done.
  - rewrite Hm2, lookup_insert_ne, lookup_insert_eq by done. f_equal. lra.
  - rewrite Hm2, lookup_insert_eq. f_equal. lra.
Qed.

End exact.

(** ** A team against itself, concretely *)

(** C1 as stated fails on a team that plays itself: after A 90 - 85 A the
    rating of the home id is not [home_before + delta]. *)
Lemma play_game_rating_update_self_game :
  let s0 := init (T := R) ∅ None None None None in
  ∃ h' self' r,
    play_game s0.1 s0.2 "t" "A" "A" 90 85 = Some (h', self', r) ∧
    rating_map h' self' !! "A"
    ≠ Some (home_rating_before r + delta_rating_ r)%R.
Proof.
  cbv zeta.
  destruct default_engine_self_game as (h' & self' & r & P & Hb & Hd & _ & Hm).
  exists h', self', r. split; [done|].
  rewrite Hm, lookup_insert_eq, Hb, Hd. intros [= Hx]. lra.
Qed.

(** C3 as stated fails on the same call: the returned record has
    [home_rating_after ≠ home_rating_before + delta_rating]. *)
Lemma play_game_record_transfer_self_game :
  let s0 := init (T := R) ∅ None None None None in
  ∃ h' self' r,
    play_game s0.1 s0.2 "t" "A" "A" 90 85 = Some (h', self', r) ∧
    home_rating_after r ≠ (home_rating_before r + delta_rating_ r)%R.
Proof.
  cbv zeta.
  destruct default_engine_self_game as (h' & self' & r & P & Hb & Hd & Ha & _).
  exists h', self', r. split; [done|].
  rewrite Ha, Hb, Hd. lra.
Qed.

(** A self-game changes the sum also in exact arithmetic: the sum of the
    ratings is 0 before A 90 - 85 A and -0.14 after it. *)
Lemma ratings_sum_self_game :
  let s0 := init (T := R) ∅ None None None None in
  ∃ h' self',
    play_games s0.1 s0.2 [("t", mkGameResult "A" "A" 90 85)]
    = Some (h', self') ∧
    sum_ratings (rating_map h' self') ≠ sum_ratings (rating_map s0.1 s0.2).
Proof.
  cbv zeta.
  destruct default_engine_self_game as (h' & self' & r & P & _ & _ & _ & Hm).
  destruct default_engine as (_ & _ & Hm0).
  exists h', self'. cbn [play_games res_home res_away res_home_score
    res_away_score]. rewrite P. split; [done|].
  rewrite Hm, Hm0, sum_ratings_insert, lookup_empty, sum_ratings_empty.
  cbn. lra.
Qed.

(** ** The theorems at concrete inputs *)

(** A 90 - 85 B on the default engine, in binary64. *)
Lemma play_game_rating_update_witness :
  let s0 := init (T := float) ∅ None None None None in
  "A" ≠ "B" ∧
  ∃ h' self' r,
    play_game s0.1 s0.2 "t" "A" "B" 90 85 = Some (h', self', r) ∧
    rating_map h' self' !! "A" = Some 0.13999999999999999%float ∧
    rating_map h' self' !! "B" = Some (-0.13999999999999999)%float.
Proof.
  cbv zeta. split; [done|].
  destruct (play_game_rating_update
              (init (T := float) ∅ None None None None).1
              (init (T := float) ∅ None None None None).2 "t" "A" "B" 90 85)
    as (h' & self' & r & P & _ & _ & _ & _ & _ & _ & HB & HA & _).
  exists h', self', r. split; [exact P|]. split.
  - rewrite HA by done. vm_compute. reflexivity.
  - rewrite HB. vm_compute. reflexivity.
Defined.

(** The record of the same call. *)
Lemma play_game_record_transfer_witness :
  let s0 := init (T := float) ∅ None None None None in
  "A" ≠ "B" ∧
  ∃ h' self' r,
    play_game s0.1 s0.2 "t" "A" "B" 90 85 = Some (h', self', r) ∧
    home_rating_after r = add (home_rating_before r) (delta_rating_ r).
Proof.
  cbv zeta. split; [done|].
  destruct (play_game_record_transfer
              (init (T := float) ∅ None None None None).1
              (init (T := float) ∅ None None None None).2 "t" "A" "B" 90 85)
    as (h' & self' & r & P & _ & _ & Hhome).
  exists h', self', r. split; [exact P|]. apply Hhome. done.
Defined.

(** A team the default engine has never seen. *)
Lemma unknown_ids_default_to_zero_witness :
  let s0 := init (T := float) ∅ None None None None in
  rating_map s0.1 s0.2 !! "Z" = None ∧
  (get_team_rating s0.1 s0.2 "Z").2 = 0%float.
Proof.
  cbv zeta.
  assert (rating_map (init (T := float) ∅ None None None None).1
            (init (T := float) ∅ None None None None).2 !! "Z" = None) as HZ
    by (vm_compute; reflexivity).
  split; [exact HZ|].
  pose proof (unknown_ids_default_to_zero
                (init (T := float) ∅ None None None None).1
                (init (T := float) ∅ None None None None).2
                "Z" "t" "A" "B" 90 85) as Hthm.
  cbv zeta in Hthm. destruct Hthm as (_ & Hnone & _).
  exact (Hnone HZ).
Defined.

(** The concrete run, replayed on an engine built from a copy of the
    initial dict that the caller kept at reference 2. *)
Lemma replay_reproduces_ratings_witness :
  let h0' := <[ 2%positive := {[ "A" := 1%float ]} ]> demo_final.1 in
  play_games (init demo_heap (Some 1%positive) None None None).1
    (init demo_heap (Some 1%positive) None None None).2 demo_games
  = Some (demo_final.1, demo_final.2) ∧
  initial_contents h0' (Some 2%positive)
  = initial_contents demo_heap (Some 1%positive) ∧
  length ["u1"; "u2"] = length (game_history demo_final.2) ∧
  ∃ h2 e2,
    play_games (init h0' (Some 2%positive) None None None).1
      (init h0' (Some 2%positive) None None None).2
      (zip ["u1"; "u2"] (result_of_record <$> game_history demo_final.2))
    = Some (h2, e2) ∧
    rating_map h2 e2 = rating_map demo_final.1 demo_final.2.
Proof.
  cbv zeta.
  assert (play_games (init demo_heap (Some 1%positive) None None None).1
            (init demo_heap (Some 1%positive) None None None).2 demo_games
          = Some (demo_final.1, demo_final.2)) as Hrun
    by (vm_compute; reflexivity).
  assert (initial_contents
            (<[ 2%positive := {[ "A" := 1%float ]} ]> demo_final.1)
            (Some 2%positive)
          = initial_contents demo_heap (Some 1%positive)) as Hinit
    by (vm_compute; reflexivity).
  assert (length ["u1"; "u2"] = length (game_history demo_final.2)) as Hclock
    by (vm_compute; reflexivity).
  split; [exact Hrun|]. split; [exact Hinit|]. split; [exact Hclock|].
  exact (replay_reproduces_ratings demo_heap (Some 1%positive) None None None
           demo_games demo_final.1 demo_final.2
           (<[ 2%positive := {[ "A" := 1%float ]} ]> demo_final.1)
           (Some 2%positive) None ["u1"; "u2"] Hrun Hinit Hclock).
Defined.

(** One engine built from [None], one from an empty dict, under different
    clocks. *)
Lemma two_runs_agree_witness :
  let h1 : gmap loc (gmap string float) := ∅ in
  let h2 : gmap loc (gmap string float) := {[ 5%positive := ∅ ]} in
  let games1 := [("t1", mkGameResult "A" "B" 90 85);
                 ("t2", mkGameResult "B" "A" 80 100)] in
  let games2 := [("u1", mkGameResult "A" "B" 90 85);
                 ("u2", mkGameResult "B" "A" 80 100)] in
  initial_contents h1 None = initial_contents h2 (Some 5%positive) ∧
  games1.*2 = games2.*2 ∧
  ∃ h1' e1' h2' e2',
    play_games (init h1 None None None None).1
      (init h1 None None None None).2 games1 = Some (h1', e1') ∧
    play_games (init h2 (Some 5%positive) None None None).1
      (init h2 (Some 5%positive) None None None).2 games2 = Some (h2', e2') ∧
    rating_map h1' e1' = rating_map h2' e2' ∧
    erase_timestamp <$> game_history e1'
    = erase_timestamp <$> game_history e2'.
Proof.
  cbv zeta.
  assert (initial_contents (T := float) ∅ None
          = initial_contents {[ 5%positive := ∅ ]} (Some 5%positive)) as Hinit
    by (vm_compute; reflexivity).
  split; [exact Hinit|]. split; [reflexivity|].
  destruct (two_runs_agree ∅ None None {[ 5%positive := ∅ ]}
              (Some 5%positive) None None None
              [("t1", mkGameResult "A" "B" 90 85);
               ("t2", mkGameResult "B" "A" 80 100)]
              [("u1", mkGameResult "A" "B" 90 85);
               ("u2", mkGameResult "B" "A" 80 100)] Hinit eq_refl)
    as (h1' & e1' & h2' & e2' & Q1 & Q2 & Hm & _ & Hlog).
  exists h1', e1', h2', e2'.
  split; [exact Q1|]. split; [exact Q2|]. split; [exact Hm|].
  exact (Hlog eq_refl).
Defined.

(** The two games of the scenario, in exact arithmetic. *)
Lemma ratings_sum_preserved_witness :
  let s0 := init (T := R) ∅ None None None None in
  let games := [("t1", mkGameResult "A" "B" 90 85);
                ("t2", mkGameResult "B" "A" 80 100)] in
  Forall (λ g : string * GameResult, res_home g.2 ≠ res_away g.2) games ∧
  ∃ h' self',
    play_games s0.1 s0.2 games = Some (h', self') ∧
    sum_ratings (rating_map h' self') = sum_ratings (rating_map s0.1 s0.2).
Proof.
  cbv zeta.
  assert (Forall (λ g : string * GameResult, res_home g.2 ≠ res_away g.2)
            [("t1", mkGameResult "A" "B" 90 85);
             ("t2", mkGameResult "B" "A" 80 100)]) as Hgames
    by (repeat constructor; done).
  split; [exact Hgames|].
  exact (ratings_sum_preserved _ _ _ Hgames).
Defined.

(** Home advantage 2.2 against 3, with [k = 0.05] and a margin of 5. *)
Lemma home_advantage_monotone_witness :
  let self1 := mkRatingSystem (T := R) 1%positive ∅ 0.05%R 2.2%R [] in
  let self2 := mkRatingSystem (T := R) 1%positive ∅ 0.05%R 3%R [] in
  k self1 = k self2 ∧ (home_adv self1 < home_adv self2)%R ∧
  (0 < k self1)%R ∧
  (expected_mov self1 0 0 < expected_mov self2 0 0)%R ∧
  (delta_rating self2 5 (expected_mov self2 0 0)
   < delta_rating self1 5 (expected_mov self1 0 0))%R.
Proof.
  cbv zeta.
  assert (2.2 < 3)%R as Hadv by lra.
  assert (0 < 0.05)%R as Hk by lra.
  split; [reflexivity|]. split; [exact Hadv|]. split; [exact Hk|].
  destruct (home_advantage_monotone
              (mkRatingSystem (T := R) 1%positive ∅ 0.05%R 2.2%R [])
              (mkRatingSystem (T := R) 1%positive ∅ 0.05%R 3%R [])
              0%R 0%R 5%Z eq_refl Hadv) as [Hexp Hdelta].
  split; [exact Hexp|exact (Hdelta Hk)].
Defined.

(** Margins 0 and 10. *)
Lemma predict_game_logistic_witness :
  (0 < 10)%R ∧ (_mov_to_probability 0 < _mov_to_probability 10)%R.
Proof.
  assert (0 < 10)%R as H010 by lra.
  split; [exact H010|].
  pose proof (predict_game_logistic
                (init (T := R) ∅ None None None None).1
                (init (T := R) ∅ None None None None).2 "A" "B") as Hthm.
  cbv zeta in Hthm. destruct Hthm as (_ & _ & Hmono).
  exact (Hmono 0%R 10%R H010).
Defined.


(** ** The scenario in binary64

    What CPython computes for the two games of the scenario: the
    expected margin of the first game and the four final ratings are the
    doubles nearest to the decimal values, and so is the second delta; the
    first delta is the double just below 0.14 and the second expected margin
    the double just above 1.92. *)

Example scenario_two_games_binary64 :
  let s0 := init (T := float) ∅ None None None None in
  (x1 ← play_game s0.1 s0.2 "t1" "A" "B" 90 85;
   x2 ← play_game x1.1.1 x1.1.2 "t2" "B" "A" 80 100;
   let r1 := x1.2 in
   let r2 := x2.2 in
   Some (expected_mov_ r1, delta_rating_ r1, (delta_rating_ r1 <? 0.14)%float,
         expected_mov_ r2, (1.92 <? expected_mov_ r2)%float,
         delta_rating_ r2, (delta_rating_ r2 =? -1.096)%float,
         rating_map x2.1.1 x2.1.2 !! "B", rating_map x2.1.1 x2.1.2 !! "A"))
  = Some (2.2%float, 0.13999999999999999%float, true,
          1.9200000000000002%float, true,
          (-1.0960000000000001)%float, true,
          Some (-1.236)%float, Some 1.236%float).
Proof. vm_compute. reflexivity. Qed.

(** ** Standings *)

Section standings_facts.
Context {T : Type} `{Arith T} `{Less T}.

Implicit Types (h : gmap loc (gmap string T)) (self : RatingSystem T).
Implicit Types (x y : string * T) (s l items : list (string * T)).

Lemma insert_desc_perm x s : insert_desc x s ≡ₚ x :: s.
Proof.
  induction s as [|y s IH]; cbn; [done|].
  destruct (less y.2 x.2); [done|]. rewrite IH. apply Permutation_swap.
Qed.

Lemma sorted_desc_snoc l x : sorted_desc (l ++ [x]) = insert_desc x (sorted_desc l).
Proof. unfold sorted_desc. by rewrite rev_unit. Qed.

Lemma sorted_desc_perm l : sorted_desc l ≡ₚ l.
Proof.
  induction l as [|x l IH] using rev_ind; [done|].
  rewrite sorted_desc_snoc, insert_desc_perm, IH.
  by rewrite Permutation_app_comm.
Qed.

(** X1.  The standings list every entry of the rating map exactly once,
    under the display name of its id, or under the id itself where the
    team mapping has no name for it; nothing else is listed. *)
Theorem get_standings_lists_every_team h self items :
  dict_items h (ratings self) items →
  get_standings self items
  ≡ₚ (λ it, (default it.1 (team_mapping self !! it.1), it.2))
       <$> map_to_list (rating_map h self) ∧
  length (get_standings self items) = size (rating_map h self) ∧
  (∀ team rating,
     rating_map h self !! team = Some rating →
     (default team (team_mapping self !! team), rating)
     ∈ get_standings self items) ∧
  (∀ name rating,
     (name, rating) ∈ get_standings self items →
     ∃ team, rating_map h self !! team = Some rating ∧
             name = default team (team_mapping self !! team)).
Proof.
  unfold dict_items, get_standings, rating_map. intros Hitems.
  assert (sorted_desc
            ((λ it, (default it.1 (team_mapping self !! it.1), it.2)) <$> items)
          ≡ₚ (λ it, (default it.1 (team_mapping self !! it.1), it.2))
               <$> map_to_list (deref h (ratings self))) as Hperm
    by (by rewrite sorted_desc_perm, Hitems).
  split; [done|]. split; [|split].
  - by rewrite Hperm, length_fmap, length_map_to_list.
  - intros team rating Hteam. rewrite Hperm. apply list_elem_of_fmap.
    exists (team, rating). split; [done|]. by apply elem_of_map_to_list.
  - intros name rating. rewrite Hperm. intros Hin.
    apply list_elem_of_fmap in Hin as ([team r] & [= -> ->] & Hin).
    exists team. split; [|done]. by apply elem_of_map_to_list.
Qed.

End standings_facts.

Section standings_exact.
Open Scope R_scope.

Implicit Types (self : RatingSystem R).
Implicit Types (x y : string * R) (s l items : list (string * R)).

Lemma R_less_true (a b : R) : less a b = true ↔ a < b.
Proof. unfold less, R_less. by rewrite bool_decide_eq_true. Qed.

Lemma R_less_false (a b : R) : less a b = false ↔ b <= a.
Proof.
  unfold less, R_less. rewrite bool_decide_eq_false. split; lra.
Qed.

Lemma insert_desc_sorted x s :
  StronglySorted (λ a b, b.2 <= a.2) s →
  StronglySorted (λ a b, b.2 <= a.2) (insert_desc x s).
Proof.
  induction s as [|y s IH]; cbn; intros Hs.
  - repeat constructor.
  - apply StronglySorted_cons in Hs as [Hy Hs].
    destruct (less y.2 x.2) eqn:Hlt.
    + apply R_less_true in Hlt. apply StronglySorted_cons. split.
      * constructor; [cbn; lra|]. eapply Forall_impl; [done|]. cbn. intros; lra.
      * by apply StronglySorted_cons.
    + apply R_less_false in Hlt. apply StronglySorted_cons. split; [|auto].
      rewrite insert_desc_perm. by constructor.
Qed.

Lemma sorted_desc_sorted l : StronglySorted (λ a b, b.2 <= a.2) (sorted_desc l).
Proof.
  induction l as [|x l IH] using rev_ind; [constructor|].
  rewrite sorted_desc_snoc. by apply insert_desc_sorted.
Qed.

Lemma filter_rating_below l (v : R) :
  Forall (λ y, y.2 < v) l → filter (λ y, y.2 = v) l = [].
Proof.
  induction 1 as [|y l Hy _ IH]; [done|].
  rewrite filter_cons_False; [done|]. cbn. lra.
Qed.

Lemma insert_desc_filter x s (v : R) :
  StronglySorted (λ a b, b.2 <= a.2) s →
  filter (λ y, y.2 = v) (insert_desc x s)
  = filter (λ y, y.2 = v) s ++ filter (λ y, y.2 = v) [x].
Proof.
  induction s as [|y s IH]; cbn [insert_desc]; intros Hs; [done|].
  apply StronglySorted_cons in Hs as [Hy Hs].
  destruct (less y.2 x.2) eqn:Hlt.
  - apply R_less_true in Hlt.
    destruct (decide (x.2 = v)) as [Hx|Hx].
    + rewrite (filter_cons_True _ x (y :: s)) by done.
      rewrite (filter_rating_below (y :: s));
        [by rewrite (filter_cons_True _ x []) by done|].
      constructor; [lra|]. eapply Forall_impl; [exact Hy|].
      cbn. intros z Hz. lra.
    + rewrite (filter_cons_False _ x (y :: s)) by done.
      rewrite (filter_cons_False _ x []) by done. by rewrite app_nil_r.
  - rewrite !(filter_cons _ y), IH by done. by case_decide.
Qed.

Lemma sorted_desc_lookup_le l (i j : nat) a b :
  (i <= j)%nat →
  sorted_desc l !! i = Some a → sorted_desc l !! j = Some b → b.2 <= a.2.
Proof.
  intros Hij Ha Hb. pose proof (sorted_desc_sorted l) as Hsorted.
  set (st := sorted_desc l) in *.
  destruct (decide (i = j)) as [->|Hne].
  { rewrite Ha in Hb. injection Hb as ->. lra. }
  rewrite <- (take_drop_middle st i a Ha) in Hsorted, Hb.
  apply StronglySorted_app in Hsorted as (_ & _ & Hsorted).
  apply StronglySorted_cons in Hsorted as [Hall _].
  rewrite lookup_app_r in Hb by (rewrite length_take; lia).
  rewrite length_take_le in Hb by (apply lookup_lt_Some in Ha; lia).
  destruct (j - i)%nat as [|n] eqn:Hji; [lia|]. cbn in Hb.
  rewrite Forall_forall in Hall. apply Hall.
  by eapply list_elem_of_lookup_2.
Qed.

(** X2.  The standings are in order of rating, highest first: an entry
    never has a lower rating than an entry further down. *)
Theorem get_standings_sorted self items :
  StronglySorted (λ a b, b.2 <= a.2) (get_standings self items) ∧
  ∀ (i j : nat) a b,
    (i <= j)%nat →
    get_standings self items !! i = Some a →
    get_standings self items !! j = Some b →
    b.2 <= a.2.
Proof.
  unfold get_standings.
  generalize ((λ it : string * R,
                 (default it.1 (team_mapping self !! it.1), it.2)) <$> items).
  intros l. split.
  - induction l as [|x l IH] using rev_ind; [constructor|].
    rewrite sorted_desc_snoc. by apply insert_desc_sorted.
  - intros i j a b. apply sorted_desc_lookup_le.
Qed.

(** X3.  Entries with the same rating stand in the order in which the dict
    lists them: the tie-break of the standings is the order of the
    ratings dict. *)
Theorem get_standings_ties_in_dict_order self items (v : R) :
  filter (λ y, y.2 = v) (get_standings self items)
  = filter (λ y, y.2 = v)
      ((λ it, (default it.1 (team_mapping self !! it.1), it.2)) <$> items).
Proof.
  unfold get_standings.
  generalize ((λ it : string * R,
                 (default it.1 (team_mapping self !! it.1), it.2)) <$> items).
  intros l. induction l as [|x l IH] using rev_ind; [done|].
  rewrite sorted_desc_snoc, insert_desc_filter by apply sorted_desc_sorted.
  by rewrite IH, filter_app.
Qed.

(** X4.  [standings[0]] has the highest rating of the map and
    [standings[-1]] the lowest. *)
Theorem get_standings_extremes (h : gmap loc (gmap string R)) self items
    top bottom team rating :
  dict_items h (ratings self) items →
  head (get_standings self items) = Some top →
  last (get_standings self items) = Some bottom →
  rating_map h self !! team = Some rating →
  bottom.2 <= rating <= top.2.
Proof.
  intros Hitems Htop Hbottom Hteam.
  assert ((default team (team_mapping self !! team), rating)
          ∈ get_standings self items) as Hin.
  { unfold get_standings. rewrite sorted_desc_perm.
    apply list_elem_of_fmap. exists (team, rating). split; [done|].
    rewrite Hitems. by apply elem_of_map_to_list. }
  apply list_elem_of_lookup in Hin as [i Hi].
  rewrite head_lookup in Htop. rewrite last_lookup in Hbottom.
  unfold get_standings in *.
  assert (i <= pred (length (sorted_desc
            ((λ it, (default it.1 (team_mapping self !! it.1), it.2))
               <$> items))))%nat as Hlast
    by (apply lookup_lt_Some in Hi; lia).
  pose proof (sorted_desc_lookup_le _ _ _ _ _ Hlast Hi Hbottom) as Hlow.
  pose proof (sorted_desc_lookup_le _ _ _ _ _ (Nat.le_0_l i) Htop Hi) as Hhigh.
  cbn in Hlow, Hhigh. lra.
Qed.

End standings_exact.

(** ** The log, the map and the heap over a run *)

(* [set_solver] clears hypotheses it has already used up. *)
#[local] Set Warnings "-clear-no-such-hyp".

Section run_facts.
Context {T : Type} `{Arith T}.

Implicit Types (h : gmap loc (gmap string T)) (self : RatingSystem T).
Implicit Types (games : list (string * GameResult)).

(** The ids of a list of games. *)
Lemma play_games_cons h self now g rest :
  play_games h self ((now, g) :: rest)
  = x ← play_game h self now (res_home g) (res_away g)
           (res_home_score g) (res_away_score g);
    play_games x.1.1 x.1.2 rest.
Proof. reflexivity. Qed.

(** X5.  A run creates an entry for every id that plays and for no other:
    the ids of the map after the run are the ids before it and the home and
    away ids of the games. *)
Theorem play_games_teams h self games :
  ∃ h' self',
    play_games h self games = Some (h', self') ∧
    dom (rating_map h' self')
    = dom (rating_map h self)
      ∪ list_to_set (res_home <$> games.*2)
      ∪ list_to_set (res_away <$> games.*2).
Proof.
  revert h self. induction games as [|[now g] rest IH]; intros h self.
  - exists h, self. split; [done|]. cbn. set_solver.
  - rewrite play_games_cons.
    destruct (play_game_step h self now (res_home g) (res_away g)
                (res_home_score g) (res_away_score g))
      as (h1 & e1 & r & P & _ & _ & _ & _ & _ & _ & _ & Hm & _).
    rewrite P. cbn [mbind option_bind fst snd].
    destruct (IH h1 e1) as (h' & self' & Q & Hdom).
    exists h', self'. split; [done|].
    rewrite Hdom, Hm, !dom_insert_L. cbn. set_solver.
Qed.

(** X6.  The log is append-only and in step with the calls: a run leaves
    the earlier records in place and appends one record per game, in call
    order, each with the ids, the scores and the clock reading of its
    call; it leaves [k], [home_adv] and the team mapping as they were. *)
Theorem play_games_log h self games :
  ∃ h' self' new,
    play_games h self games = Some (h', self') ∧
    game_history self' = game_history self ++ new ∧
    length new = length games ∧
    result_of_record <$> new = games.*2 ∧
    timestamp <$> new = games.*1 ∧
    k self' = k self ∧ home_adv self' = home_adv self ∧
    team_mapping self' = team_mapping self.
Proof.
  revert h self. induction games as [|[now g] rest IH]; intros h self.
  - exists h, self, []. by rewrite app_nil_r.
  - rewrite play_games_cons.
    destruct (play_game h self now (res_home g) (res_away g)
                (res_home_score g) (res_away_score g))
      as [[[h1 e1] r]|] eqn:P; [|play_game_inv P].
    cbn [mbind option_bind fst snd].
    destruct (IH h1 e1)
      as (h' & self' & new & Q & Hlog & Hlen & Hres & Hts & Hk & Ha & Htm).
    exists h', self', (r :: new). split; [done|].
    play_game_inv P. cbn in *.
    rewrite Hlog, <- app_assoc, Hlen, Hres, Hts. by destruct g.
Qed.

(** X7.  The record agrees with the engine on both sides of the call: its
    before-values are what [get_team_rating] returns before the call and
    its after-values what [get_team_rating] returns after it, for the home
    and for the away id, also when the two are the same id. *)
Theorem play_game_record_matches_state h self now home_ away_ hs as_ :
  ∃ h' self' r,
    play_game h self now home_ away_ hs as_ = Some (h', self', r) ∧
    (get_team_rating h self home_).2 = home_rating_before r ∧
    (get_team_rating h self away_).2 = away_rating_before r ∧
    (get_team_rating h' self' home_).2 = home_rating_after r ∧
    (get_team_rating h' self' away_).2 = away_rating_after r.
Proof.
  destruct (play_game_step h self now home_ away_ hs as_)
    as (h' & self' & r & P & _ & _ & Hb & Hb' & _ & _ & _ & _ & Ha & Ha').
  exists h', self', r. split; [done|].
  unfold get_team_rating. cbn [snd]. rewrite !dict_get_rating_map.
  by rewrite Hb, Hb', Ha, Ha'.
Qed.

(** X8.  Only the margin of a game enters the update: adding the same
    number of points to both scores changes the two scores stored in the
    record and nothing else: the heap is the same, every other field of the
    record is the same, and the engines differ in that record of the log
    only. *)
Theorem play_game_score_shift h self now home_ away_ hs as_ (c : Z) :
  ∃ h1 e1 r1 h2 e2 r2,
    play_game h self now home_ away_ hs as_ = Some (h1, e1, r1) ∧
    play_game h self now home_ away_ (hs + c) (as_ + c) = Some (h2, e2, r2) ∧
    h2 = h1 ∧
    rating_map h2 e2 = rating_map h1 e1 ∧
    r2 = {| timestamp := timestamp r1;
            home := home r1;
            away := away r1;
            home_score := (hs + c)%Z;
            away_score := (as_ + c)%Z;
            home_rating_before := home_rating_before r1;
            away_rating_before := away_rating_before r1;
            home_rating_after := home_rating_after r1;
            away_rating_after := away_rating_after r1;
            expected_mov_ := expected_mov_ r1;
            actual_mov_ := actual_mov_ r1;
            delta_rating_ := delta_rating_ r1;
            home_team_full := home_team_full r1;
            away_team_full := away_team_full r1 |} ∧
    home_score r1 = hs ∧ away_score r1 = as_ ∧
    game_history e1 = game_history self ++ [r1] ∧
    e2 = {| ratings := ratings e1;
            team_mapping := team_mapping e1;
            k := k e1;
            home_adv := home_adv e1;
            game_history := game_history self ++ [r2] |}.
Proof.
  pose proof (play_game_eq h self now home_ away_ hs as_) as E1.
  pose proof (play_game_eq h self now home_ away_ (hs + c) (as_ + c)) as E2.
  cbv zeta in E1, E2. rewrite E1, E2. clear E1 E2.
  eexists _, _, _, _, _, _. split; [reflexivity|]. split; [reflexivity|].
  cbn. rewrite !rating_map_insert_upd.
  by replace (hs + c - (as_ + c))%Z with (hs - as_)%Z by lia.
Qed.

End run_facts.

(** ** The auto-update loop and the manual form *)

Section loop_facts.
Context {T : Type} `{Arith T}.

Implicit Types (h : gmap loc (gmap string T)) (self : RatingSystem T).
Implicit Types (history : list (GameRecord T)) (game : GameResult).
Implicit Types (games : list (string * GameResult)).

Lemma same_game_spec (g : GameRecord T) game :
  same_game g game = true ↔ result_of_record g = game.
Proof.
  unfold same_game, result_of_record. rewrite !andb_true_iff.
  rewrite !bool_decide_eq_true. destruct game as [gh ga ghs gas]. cbn.
  split; [intros [[[-> ->] ->] ->]; done|]. by intros [= -> -> -> ->].
Qed.

Lemma game_exists_spec history game :
  game_exists history game = true ↔ game ∈ result_of_record <$> history.
Proof.
  unfold game_exists. rewrite existsb_exists, list_elem_of_fmap.
  split.
  - intros (g & Hin & Hg). exists g. split.
    + symmetry. by apply same_game_spec.
    + by apply list_elem_of_In.
  - intros (g & -> & Hin). exists g. split.
    + by apply list_elem_of_In.
    + by apply same_game_spec.
Qed.

Lemma game_exists_false history game :
  game_exists history game = false ↔ game ∉ result_of_record <$> history.
Proof.
  rewrite <- game_exists_spec. destruct (game_exists history game);
    split; try done.
Qed.

(** A pass over games that are all in the history changes nothing. *)
Lemma add_new_games_known h self history n games :
  Forall (λ g, g.2 ∈ result_of_record <$> history) games →
  add_new_games h self history n games = Some (h, self, history, n).
Proof.
  induction 1 as [|[now game] rest Hg _ IH]; cbn [add_new_games]; [done|].
  apply game_exists_spec in Hg. cbn in Hg. by rewrite Hg.
Qed.

(** What a pass of the loop leaves behind. *)
Lemma add_new_games_inv games : ∀ h self history n,
  ∃ h' self' added,
    add_new_games h self history n games
    = Some (h', self', history ++ added, (n + length added)%nat) ∧
    game_history self' = game_history self ++ added ∧
    Forall (λ g, g.2 ∈ result_of_record <$> (history ++ added)) games ∧
    Forall (λ r, result_of_record r ∈ games.*2) added ∧
    (NoDup (result_of_record <$> history) →
     NoDup (result_of_record <$> (history ++ added))).
Proof.
  induction games as [|[now game] rest IH]; intros h self history n.
  - exists h, self, []. cbn. rewrite !app_nil_r, Nat.add_0_r.
    repeat split; try done; constructor.
  - cbn [add_new_games]. destruct (game_exists history game) eqn:Hex.
    + destruct (IH h self history n)
        as (h' & self' & added & Q & Hlog & Hall & Hadded & Hnodup).
      exists h', self', added. repeat split; try done.
      * constructor; [|done]. cbn. apply game_exists_spec in Hex.
        rewrite fmap_app. apply elem_of_app. by left.
      * eapply Forall_impl; [done|]. cbn. intros r Hr. by right.
    + destruct (play_game h self now (res_home game) (res_away game)
                  (res_home_score game) (res_away_score game))
        as [[[h1 e1] r]|] eqn:P; [|play_game_inv P].
      cbn [mbind option_bind fst snd].
      destruct (IH h1 e1 (history ++ [r]) (S n))
        as (h' & self' & added & Q & Hlog & Hall & Hadded & Hnodup).
      assert (result_of_record r = game ∧
              game_history e1 = game_history self ++ [r]) as [Hr Hlog1].
      { play_game_inv P. by destruct game. }
      exists h', self', (r :: added).
      rewrite <- !app_assoc in *. cbn [app] in *.
      rewrite Q, Hlog, Hlog1, <- app_assoc. cbn [length app].
      replace (S n + length added)%nat with (n + S (length added))%nat by lia.
      repeat split; try done.
      * constructor; [|done]. cbn. rewrite fmap_app, fmap_cons, Hr.
        apply elem_of_app. right. by left.
      * constructor; [rewrite Hr; by left|].
        eapply Forall_impl; [done|]. cbn. intros r' Hr'. by right.
      * intros Hnd. apply Hnodup. rewrite fmap_app. apply NoDup_app.
        split; [done|]. split.
        -- intros x Hx Hx'. cbn in Hx'. apply list_elem_of_singleton in Hx'.
           subst x. rewrite Hr in Hx. by apply game_exists_false in Hex.
        -- cbn. apply NoDup_singleton.
Qed.

(** X9.  A second pass of the auto-update loop over the same scraped games
    plays nothing: it leaves heap, engine and session history as the first
    pass left them and counts no added game. *)
Theorem add_new_games_twice h self history n games games' :
  games'.*2 = games.*2 →
  ∃ h1 e1 history1 n1,
    add_new_games h self history n games = Some (h1, e1, history1, n1) ∧
    add_new_games h1 e1 history1 0 games' = Some (h1, e1, history1, 0%nat).
Proof.
  intros Hsame.
  destruct (add_new_games_inv games h self history n)
    as (h1 & e1 & added & Q & _ & Hall & _).
  exists h1, e1, (history ++ added), (n + length added)%nat.
  split; [done|]. apply add_new_games_known.
  apply Forall_forall. intros g Hg.
  rewrite Forall_forall in Hall.
  assert (g.2 ∈ games.*2) as Hin.
  { rewrite <- Hsame. apply list_elem_of_fmap. by exists g. }
  apply list_elem_of_fmap in Hin as (g0 & -> & Hg0). by apply Hall.
Qed.

(** X10.  The auto-update loop keeps the session history free of repeated
    results: if no two records of the history have the same ids and scores
    before a pass, none have after it, even when the scraped list repeats a
    game. *)
Theorem add_new_games_no_repeats h self history n games :
  NoDup (result_of_record <$> history) →
  ∃ h' self' history' n',
    add_new_games h self history n games = Some (h', self', history', n') ∧
    NoDup (result_of_record <$> history').
Proof.
  intros Hnd.
  destruct (add_new_games_inv games h self history n)
    as (h' & self' & added & Q & _ & _ & _ & Hnodup).
  exists h', self', (history ++ added), (n + length added)%nat.
  split; [done|]. by apply Hnodup.
Qed.

(** X11.  A pass of the auto-update loop appends the same records, in the
    same order, to the session history and to the log of the engine; the
    count it keeps is their number; every scraped game is in the history
    after the pass, and every appended record is one of the scraped
    games. *)
Theorem add_new_games_in_step h self history n games :
  ∃ h' self' added,
    add_new_games h self history n games
    = Some (h', self', history ++ added, (n + length added)%nat) ∧
    game_history self' = game_history self ++ added ∧
    (∀ g, g ∈ games → g.2 ∈ result_of_record <$> (history ++ added)) ∧
    (∀ r, r ∈ added → result_of_record r ∈ games.*2).
Proof.
  destruct (add_new_games_inv games h self history n)
    as (h' & self' & added & Q & Hlog & Hall & Hadded & _).
  exists h', self', added.
  rewrite Forall_forall in Hall. rewrite Forall_forall in Hadded.
  by repeat split.
Qed.

(** X12.  The manual form does not look at the history: a game whose ids
    and scores are already in the session history is played again, its
    record is appended a second time, and the history then holds a repeated
    result. *)
Theorem add_manual_game_repeats h self history now game :
  game ∈ result_of_record <$> history →
  ∃ h' self' r,
    add_manual_game h self history now game
    = Some (h', self', history ++ [r]) ∧
    result_of_record r = game ∧
    game_history self' = game_history self ++ [r] ∧
    ¬ NoDup (result_of_record <$> (history ++ [r])).
Proof.
  intros Hin. unfold add_manual_game.
  destruct (play_game h self now (res_home game) (res_away game)
              (res_home_score game) (res_away_score game))
    as [[[h1 e1] r]|] eqn:P; [|play_game_inv P].
  cbn. exists h1, e1, r. split; [done|].
  assert (result_of_record r = game ∧
          game_history e1 = game_history self ++ [r]) as [Hr Hlog].
  { play_game_inv P. by destruct game. }
  repeat split; try done.
  rewrite fmap_app. intros Hnd. apply NoDup_app in Hnd as (_ & Hdisj & _).
  apply (Hdisj game Hin). cbn. rewrite Hr. by left.
Qed.

End loop_facts.

(** ** Who sees the writes of an engine *)

Section heap_facts.
Context {T : Type} `{Arith T}.

Implicit Types (h : gmap loc (gmap string T)) (self : RatingSystem T).
Implicit Types (games : list (string * GameResult)) (l : loc).

Lemma play_games_frame games : ∀ h self h' self' l,
  play_games h self games = Some (h', self') →
  ratings self' = ratings self ∧
  (l ≠ ratings self → deref h' l = deref h l).
Proof.
  induction games as [|[now g] rest IH]; intros h self h' self' l.
  - by intros [= <- <-].
  - rewrite play_games_cons.
    destruct (play_game h self now (res_home g) (res_away g)
                (res_home_score g) (res_away_score g))
      as [[[h1 e1] r]|] eqn:P; [|play_game_inv P].
    cbn [mbind option_bind fst snd]. intros Q.
    destruct (play_game_frame _ _ _ _ _ _ _ _ _ _ l P) as [Hr1 Hf1].
    destruct (IH _ _ _ _ l Q) as [Hr2 Hf2].
    split; [congruence|]. intros Hl. rewrite Hf2 by congruence. by apply Hf1.
Qed.

(** X14.  An empty dict handed to the constructor is not the dict the
    engine writes to: the engine makes a dict of its own, and the caller's
    dict is still empty after any run. *)
Theorem init_leaves_empty_dict h l tm k_arg ha_arg games :
  is_Some (h !! l) → deref h l = ∅ →
  ∃ h' self',
    play_games (init h (Some l) tm k_arg ha_arg).1
      (init h (Some l) tm k_arg ha_arg).2 games = Some (h', self') ∧
    ratings self' ≠ l ∧
    deref h' l = ∅.
Proof.
  intros Hlive Hempty.
  set (s := init h (Some l) tm k_arg ha_arg).
  assert (ratings s.2 ≠ l) as Hfresh.
  { pose proof (init_new_dict h (Some l) tm k_arg ha_arg Hempty) as Hnew.
    fold s in Hnew. intros Heq. apply Hnew. rewrite Heq.
    by apply elem_of_dom. }
  assert (deref s.1 l = ∅) as Hl.
  { unfold s, init, new_dict. rewrite decide_True by done. cbn.
    rewrite deref_insert_ne; [done|].
    intros Heq. apply (is_fresh (dom h)). rewrite Heq. by apply elem_of_dom. }
  destruct (play_games s.1 s.2 games) as [[h' self']|] eqn:Q;
    [|by destruct (play_games_total s.1 s.2 games) as [? ?]; congruence].
  destruct (play_games_frame games _ _ _ _ l Q) as [Hr Hf].
  exists h', self'. split; [done|]. split; [congruence|].
  by rewrite Hf.
Qed.

(** X15.  A run writes to the dict of its engine only: an engine that
    holds another dict reports the same ratings after the run as before
    it. *)
Theorem play_games_other_engine h self other games team :
  ratings other ≠ ratings self →
  ∃ h' self',
    play_games h self games = Some (h', self') ∧
    rating_map h' other = rating_map h other ∧
    (get_team_rating h' other team).2 = (get_team_rating h other team).2.
Proof.
  intros Hother.
  destruct (play_games h self games) as [[h' self']|] eqn:Q;
    [|by destruct (play_games_total h self games) as [? ?]; congruence].
  destruct (play_games_frame games _ _ _ _ (ratings other) Q) as [_ Hf].
  exists h', self'. split; [done|].
  unfold get_team_rating, dict_get, rating_map. cbn.
  by rewrite Hf.
Qed.

End heap_facts.

(** ** The update rule and the logistic map, in exact arithmetic *)

Section rule_exact.
Open Scope R_scope.

Implicit Types (h : gmap loc (gmap string R)) (self : RatingSystem R).

(** X16.  A game between two different teams moves the expected margin of
    the same fixture towards the margin that was played: the new expected
    margin is the old one plus twice [delta], so what is left of the
    surprise is [(1 - 2k)] times the surprise of the game. *)
Theorem play_game_halves_surprise h self now home_ away_ hs as_ :
  home_ ≠ away_ →
  ∃ h' self' r,
    play_game h self now home_ away_ hs as_ = Some (h', self', r) ∧
    pred_expected_mov (predict_game h' self' home_ away_).2
    = expected_mov_ r + 2 * delta_rating_ r ∧
    IZR (actual_mov_ r)
    - pred_expected_mov (predict_game h' self' home_ away_).2
    = (1 - 2 * k self) * (IZR (actual_mov_ r) - expected_mov_ r).
Proof.
  intros Hne.
  destruct (play_game_step h self now home_ away_ hs as_)
    as (h' & self' & r & P & Hk & Ha & Hb & Hb' & He & Hact & Hd & Hm
        & Hafter & Hafter').
  exists h', self', r. split; [done|].
  unfold predict_game. cbn [snd pred_expected_mov].
  unfold expected_mov. rewrite !dict_get_rating_map, Hafter, Hafter', Ha.
  cbn [default].
  rewrite Hm, lookup_insert_eq in Hafter'.
  rewrite Hm, lookup_insert_ne, lookup_insert_eq in Hafter by done.
  injection Hafter as <-. injection Hafter' as <-.
  unfold Datatypes.id. to_R. rewrite Hd, He, Hact. to_R. split; ring.
Qed.

(** X17.  For a positive [k] the sign of [delta] is the sign of the
    surprise: the home side gains rating exactly when the margin played
    exceeds the expected margin, loses rating exactly when it falls short,
    and a game that meets the expected margin changes no rating. *)
Theorem delta_rating_sign self (actual : Z) (expected : R) :
  0 < k self →
  (0 < delta_rating self actual expected ↔ expected < IZR actual) ∧
  (delta_rating self actual expected < 0 ↔ IZR actual < expected) ∧
  (delta_rating self actual expected = 0 ↔ IZR actual = expected).
Proof.
  intros Hk. unfold delta_rating. to_R.
  set (s := IZR actual - expected).
  assert (expected < IZR actual ↔ 0 < s) as -> by (unfold s; split; lra).
  assert (IZR actual < expected ↔ s < 0) as -> by (unfold s; split; lra).
  assert (IZR actual = expected ↔ s = 0) as -> by (unfold s; split; lra).
  split; [|split]; split; intros Hs; nra.
Qed.

(** X18.  The home-win probability lies strictly between 0 and 1, the
    probabilities of a margin and of the opposite margin add up to 1, and
    the home side is the favourite (probability above 1/2) exactly when
    the expected margin is positive. *)
Theorem _mov_to_probability_range (mov : R) :
  0 < _mov_to_probability mov < 1 ∧
  _mov_to_probability (- mov) = 1 - _mov_to_probability mov ∧
  (1 / 2 < _mov_to_probability mov ↔ 0 < mov).
Proof.
  rewrite !_mov_to_probability_eq.
  pose proof (exp_pos (- mov / 10)) as Hpos.
  assert (exp (- - mov / 10) = / exp (- mov / 10)) as Hinv.
  { replace (- - mov / 10) with (- (- mov / 10)) by lra. apply exp_Ropp. }
  assert (1 / (1 + exp (- mov / 10)) * (1 + exp (- mov / 10)) = 1) as Hq
    by (field; lra).
  assert (0 < 1 / (1 + exp (- mov / 10))) as Hq0
    by (apply Rdiv_lt_0_compat; lra).
  split; [|split].
  - split; [done|]. nra.
  - rewrite Hinv. field. split; lra.
  - assert (1 / 2 < 1 / (1 + exp (- mov / 10)) ↔ exp (- mov / 10) < 1) as ->
      by (split; intros Hlt; nra).
    rewrite <- exp_0 at 1. split; intros Hlt.
    + apply exp_lt_inv in Hlt. lra.
    + apply exp_increasing. lra.
Qed.

(** X19.  The expected margins of a fixture and of the reversed fixture add
    up to twice the home advantage; without home advantage the two home-win
    probabilities add up to 1. *)
Theorem predict_game_reversed h self home_ away_ :
  pred_expected_mov (predict_game h self home_ away_).2
  + pred_expected_mov (predict_game h self away_ home_).2
  = 2 * home_adv self ∧
  (home_adv self = 0 →
   pred_home_win_probability (predict_game h self home_ away_).2
   + pred_home_win_probability (predict_game h self away_ home_).2 = 1).
Proof.
  unfold predict_game. cbn [snd pred_expected_mov pred_home_win_probability].
  unfold expected_mov. to_R. split; [lra|]. intros Hadv. rewrite Hadv.
  set (a := dict_get h (ratings self) home_ 0).
  set (b := dict_get h (ratings self) away_ 0).
  replace (b + 0 - a) with (- (a + 0 - b)) by lra.
  rewrite !_mov_to_probability_eq.
  pose proof (exp_pos (- (a + 0 - b) / 10)) as Hpos.
  replace (- - (a + 0 - b) / 10) with (- (- (a + 0 - b) / 10)) by lra.
  rewrite exp_Ropp. field. split; lra.
Qed.

(** X20.  The value handed to [st.progress] is always within [0, 1]: it is
    [(rating + 10) / 20] for ratings from -10 to 10, 0 below and 1 above. *)
Theorem progress_value_range (rating : R) :
  0 <= progress_value rating <= 1 ∧
  (-10 <= rating <= 10 → progress_value rating = (rating + 10) / 20) ∧
  (rating <= -10 → progress_value rating = 0) ∧
  (10 <= rating → progress_value rating = 1).
Proof.
  unfold progress_value, py_min, py_max. to_R.
  destruct (less ((rating + 10) / 20) 0) eqn:Hlow.
  - apply R_less_true in Hlow.
    assert (less 1 0 = false) as -> by (apply R_less_false; lra).
    repeat split; intros; lra.
  - apply R_less_false in Hlow.
    destruct (less 1 ((rating + 10) / 20)) eqn:Hhigh.
    + apply R_less_true in Hhigh. repeat split; intros; lra.
    + apply R_less_false in Hhigh. repeat split; intros; lra.
Qed.

End rule_exact.

(** ** The further theorems at concrete inputs *)

(** The engine built on the concrete heap, before any game. *)
Lemma get_standings_lists_every_team_witness :
  let self := (init demo_heap (Some 1%positive) None None None).2 in
  let items := [("A", 1%float)] in
  dict_items demo_heap (ratings self) items ∧
  length (get_standings self items) = size (rating_map demo_heap self).
Proof.
  cbv zeta.
  assert (dict_items demo_heap
            (ratings (init demo_heap (Some 1%positive) None None None).2)
            [("A", 1%float)]) as Hitems
    by (unfold dict_items; vm_compute; reflexivity).
  split; [exact Hitems|].
  exact (proj1 (proj2 (get_standings_lists_every_team demo_heap _ _ Hitems))).
Defined.

(** Two rated teams, in exact arithmetic: B (2) stands above A (1). *)
Lemma two_team_standings :
  get_standings (mkRatingSystem (T := R) 1%positive ∅ 0.05%R 2.2%R [])
    [("A", 1%R); ("B", 2%R)]
  = [("B", 2%R); ("A", 1%R)].
Proof.
  unfold get_standings, sorted_desc. cbn [fmap list_fmap team_mapping fst snd].
  rewrite !lookup_empty. cbn [default rev app foldr insert_desc snd].
  unfold Datatypes.id. cbn [snd].
  by rewrite (proj2 (R_less_true 1 2)) by lra.
Qed.

Lemma get_standings_sorted_witness :
  let self := mkRatingSystem (T := R) 1%positive ∅ 0.05%R 2.2%R [] in
  let items := [("A", 1%R); ("B", 2%R)] in
  (0 <= 1)%nat ∧
  get_standings self items !! 0%nat = Some ("B", 2%R) ∧
  get_standings self items !! 1%nat = Some ("A", 1%R) ∧
  (1 <= 2)%R.
Proof.
  cbv zeta.
  assert (get_standings (mkRatingSystem (T := R) 1%positive ∅ 0.05%R 2.2%R [])
            [("A", 1%R); ("B", 2%R)] !! 0%nat = Some ("B", 2%R)) as H0
    by (by rewrite two_team_standings).
  assert (get_standings (mkRatingSystem (T := R) 1%positive ∅ 0.05%R 2.2%R [])
            [("A", 1%R); ("B", 2%R)] !! 1%nat = Some ("A", 1%R)) as H1
    by (by rewrite two_team_standings).
  split; [exact (Nat.le_0_l 1)|]. split; [exact H0|]. split; [exact H1|].
  exact (proj2 (get_standings_sorted _ _) 0%nat 1%nat _ _ (Nat.le_0_l 1) H0 H1).
Defined.

Lemma get_standings_extremes_witness :
  let h : gmap loc (gmap string R) :=
    {[ 1%positive := <["A" := 1%R]> {[ "B" := 2%R ]} ]} in
  let self := mkRatingSystem (T := R) 1%positive ∅ 0.05%R 2.2%R [] in
  let items := [("A", 1%R); ("B", 2%R)] in
  dict_items h (ratings self) items ∧
  head (get_standings self items) = Some ("B", 2%R) ∧
  last (get_standings self items) = Some ("A", 1%R) ∧
  rating_map h self !! "A" = Some 1%R ∧
  (1 <= 1 <= 2)%R.
Proof.
  cbv zeta.
  assert (dict_items
            ({[ 1%positive := <["A" := 1%R]> {[ "B" := 2%R ]} ]}
               : gmap loc (gmap string R))
            (ratings (mkRatingSystem (T := R) 1%positive ∅ 0.05%R 2.2%R []))
            [("A", 1%R); ("B", 2%R)]) as Hitems.
  { unfold dict_items, deref. cbn [ratings]. rewrite lookup_singleton_eq.
    cbn [default]. unfold Datatypes.id.
    rewrite map_to_list_insert by done. by rewrite map_to_list_singleton. }
  assert (head (get_standings
                  (mkRatingSystem (T := R) 1%positive ∅ 0.05%R 2.2%R [])
                  [("A", 1%R); ("B", 2%R)]) = Some ("B", 2%R)) as Hhead
    by (by rewrite two_team_standings).
  assert (last (get_standings
                  (mkRatingSystem (T := R) 1%positive ∅ 0.05%R 2.2%R [])
                  [("A", 1%R); ("B", 2%R)]) = Some ("A", 1%R)) as Hlast
    by (by rewrite two_team_standings).
  assert (rating_map
            ({[ 1%positive := <["A" := 1%R]> {[ "B" := 2%R ]} ]}
               : gmap loc (gmap string R))
            (mkRatingSystem (T := R) 1%positive ∅ 0.05%R 2.2%R [])
          !! "A" = Some 1%R) as HA.
  { unfold rating_map, deref. cbn [ratings]. rewrite lookup_singleton_eq.
    cbn [default]. unfold Datatypes.id. by rewrite lookup_insert_eq. }
  split; [exact Hitems|]. split; [exact Hhead|]. split; [exact Hlast|].
  split; [exact HA|].
  exact (get_standings_extremes _ _ _ _ _ _ _ Hitems Hhead Hlast HA).
Defined.

(** A scraped list that repeats a game, passed twice under different
    clocks. *)
Lemma add_new_games_twice_witness :
  let s := init (T := float) ∅ None None None None in
  let games := [("t1", mkGameResult "A" "B" 90 85);
                ("t2", mkGameResult "A" "B" 90 85)] in
  let games' := [("u1", mkGameResult "A" "B" 90 85);
                 ("u2", mkGameResult "A" "B" 90 85)] in
  games'.*2 = games.*2 ∧
  ∃ h1 e1 history1 n1,
    add_new_games s.1 s.2 [] 0 games = Some (h1, e1, history1, n1) ∧
    add_new_games h1 e1 history1 0 games' = Some (h1, e1, history1, 0%nat).
Proof.
  cbv zeta. split; [reflexivity|].
  exact (add_new_games_twice _ _ [] 0%nat
           [("t1", mkGameResult "A" "B" 90 85);
            ("t2", mkGameResult "A" "B" 90 85)]
           [("u1", mkGameResult "A" "B" 90 85);
            ("u2", mkGameResult "A" "B" 90 85)] eq_refl).
Defined.

Lemma add_new_games_no_repeats_witness :
  let s := init (T := float) ∅ None None None None in
  let games := [("t1", mkGameResult "A" "B" 90 85);
                ("t2", mkGameResult "A" "B" 90 85)] in
  NoDup (result_of_record <$> ([] : list (GameRecord float))) ∧
  ∃ h' self' history' n',
    add_new_games s.1 s.2 [] 0 games = Some (h', self', history', n') ∧
    NoDup (result_of_record <$> history').
Proof.
  cbv zeta.
  assert (NoDup (result_of_record <$> ([] : list (GameRecord float))))
    as Hnd by constructor.
  split; [exact Hnd|].
  exact (add_new_games_no_repeats _ _ [] 0%nat _ Hnd).
Defined.

(** The game of the session's only record, entered again by hand. *)
Lemma add_manual_game_repeats_witness :
  let s := init (T := float) ∅ None None None None in
  let r0 := mkGameRecord (T := float) "t0" "A" "B" 90 85
              0%float 0%float 0%float 0%float 0%float 5 0%float "A" "B" in
  let game := mkGameResult "A" "B" 90 85 in
  game ∈ result_of_record <$> [r0] ∧
  ∃ h' self' r,
    add_manual_game s.1 s.2 [r0] "t1" game = Some (h', self', [r0] ++ [r]) ∧
    ¬ NoDup (result_of_record <$> ([r0] ++ [r])).
Proof.
  cbv zeta.
  assert (mkGameResult "A" "B" 90 85
          ∈ result_of_record
              <$> [mkGameRecord (T := float) "t0" "A" "B" 90 85
                     0%float 0%float 0%float 0%float 0%float 5 0%float
                     "A" "B"]) as Hin
    by (cbn; by left).
  split; [exact Hin|].
  destruct (add_manual_game_repeats
              (init (T := float) ∅ None None None None).1
              (init (T := float) ∅ None None None None).2 _ "t1" _ Hin)
    as (h' & self' & r & Hadd & _ & _ & Hrep).
  exists h', self', r. split; [exact Hadd|exact Hrep].
Defined.

(** The caller's dict of the concrete heap after one game. *)
Lemma init_shares_nonempty_dict_witness :
  deref demo_heap 1%positive ≠ ∅ ∧
  ∃ h' self' r,
    play_game (init demo_heap (Some 1%positive) None None None).1
      (init demo_heap (Some 1%positive) None None None).2 "t" "A" "B" 90 85
    = Some (h', self', r) ∧
    deref h' 1%positive = rating_map h' self'.
Proof.
  assert (deref demo_heap 1%positive ≠ ∅) as Hne.
  { intros Heq. apply (f_equal (λ m : gmap string float, size m)) in Heq.
    vm_compute in Heq. discriminate Heq. }
  split; [exact Hne|].
  destruct (init_shares_nonempty_dict demo_heap 1%positive None None None
              "t" "A" "B" 90 85 Hne) as (h' & self' & r & P & Hsame & _).
  exists h', self', r. split; [exact P|exact Hsame].
Defined.

(** A caller's empty dict at reference 1. *)
Lemma init_leaves_empty_dict_witness :
  let h : gmap loc (gmap string float) := {[ 1%positive := ∅ ]} in
  is_Some (h !! 1%positive) ∧ deref h 1%positive = ∅ ∧
  ∃ h' self',
    play_games (init h (Some 1%positive) None None None).1
      (init h (Some 1%positive) None None None).2 demo_games
    = Some (h', self') ∧
    ratings self' ≠ 1%positive ∧
    deref h' 1%positive = ∅.
Proof.
  cbv zeta.
  assert (is_Some (({[ 1%positive := ∅ ]} : gmap loc (gmap string float))
                   !! 1%positive)) as Hlive
    by (exists ∅; vm_compute; reflexivity).
  assert (deref ({[ 1%positive := ∅ ]} : gmap loc (gmap string float))
            1%positive = ∅) as Hempty
    by (vm_compute; reflexivity).
  split; [exact Hlive|]. split; [exact Hempty|].
  exact (init_leaves_empty_dict _ _ None None None demo_games Hlive Hempty).
Defined.

(** Two engines on the dicts at references 1 and 2. *)
Lemma play_games_other_engine_witness :
  let h : gmap loc (gmap string float) :=
    {[ 1%positive := ∅; 2%positive := {[ "A" := 1%float ]} ]} in
  let self := mkRatingSystem (T := float) 1%positive ∅ 0.05%float 2.2%float [] in
  let other := mkRatingSystem (T := float) 2%positive ∅ 0.05%float 2.2%float [] in
  ratings other ≠ ratings self ∧
  ∃ h' self',
    play_games h self demo_games = Some (h', self') ∧
    rating_map h' other = rating_map h other.
Proof.
  cbv zeta.
  assert (ratings (mkRatingSystem (T := float) 2%positive ∅ 0.05%float 2.2%float [])
          ≠ ratings (mkRatingSystem (T := float) 1%positive ∅ 0.05%float 2.2%float []))
    as Hne by (cbn; discriminate).
  split; [exact Hne|].
  destruct (play_games_other_engine
              ({[ 1%positive := ∅; 2%positive := {[ "A" := 1%float ]} ]})
              _ _ demo_games "A" Hne) as (h' & self' & Q & Hsame & _).
  exists h', self'. split; [exact Q|exact Hsame].
Defined.

Lemma play_game_halves_surprise_witness :
  let s := init (T := R) ∅ None None None None in
  "A" ≠ "B" ∧
  ∃ h' self' r,
    play_game s.1 s.2 "t" "A" "B" 90 85 = Some (h', self', r) ∧
    (IZR (actual_mov_ r)
     - pred_expected_mov (predict_game h' self' "A" "B").2
     = (1 - 2 * k s.2) * (IZR (actual_mov_ r) - expected_mov_ r))%R.
Proof.
  cbv zeta.
  assert ("A" ≠ "B") as Hne by discriminate.
  split; [exact Hne|].
  destruct (play_game_halves_surprise
              (init (T := R) ∅ None None None None).1
              (init (T := R) ∅ None None None None).2 "t" "A" "B" 90 85 Hne)
    as (h' & self' & r & P & _ & Hhalf).
  exists h', self', r. split; [exact P|exact Hhalf].
Defined.

Lemma delta_rating_sign_witness :
  let self := mkRatingSystem (T := R) 1%positive ∅ 0.05%R 2.2%R [] in
  (0 < k self)%R ∧ (2.2 < IZR 5)%R ∧ (0 < delta_rating self 5 2.2)%R.
Proof.
  cbv zeta.
  assert (0 < k (mkRatingSystem (T := R) 1%positive ∅ 0.05%R 2.2%R []))%R
    as Hk by (cbn; lra).
  assert (2.2 < IZR 5)%R as Hwin by lra.
  split; [exact Hk|]. split; [exact Hwin|].
  exact (proj2 (proj1 (delta_rating_sign _ 5%Z 2.2%R Hk)) Hwin).
Defined.

Lemma predict_game_reversed_witness :
  let h : gmap loc (gmap string R) := ∅ in
  let self := mkRatingSystem (T := R) 1%positive ∅ 0.05%R 0%R [] in
  home_adv self = 0%R ∧
  (pred_home_win_probability (predict_game h self "A" "B").2
   + pred_home_win_probability (predict_game h self "B" "A").2 = 1)%R.
Proof.
  cbv zeta. split; [reflexivity|].
  exact (proj2 (predict_game_reversed ∅
                  (mkRatingSystem (T := R) 1%positive ∅ 0.05%R 0%R [])
                  "A" "B") eq_refl).
Defined.

Lemma progress_value_range_witness :
  (-10 <= 4 <= 10)%R ∧ progress_value 4%R = ((4 + 10) / 20)%R.
Proof.
  assert (-10 <= 4 <= 10)%R as Hmid by lra.
  split; [exact Hmid|].
  exact (proj1 (proj2 (progress_value_range 4%R)) Hmid).
Defined.

(** ** The average of the standings *)

Section average_exact.
Open Scope R_scope.

Implicit Types (h : gmap loc (gmap string R)) (self : RatingSystem R).
Implicit Types (m : gmap string R) (l : list R).

Lemma foldl_Rplus_acc l (a : R) : foldl Rplus a l = a + foldl Rplus 0 l.
Proof.
  revert a. induction l as [|x l IH]; intros a; cbn; [lra|].
  rewrite (IH (a + x)), (IH (0 + x)). lra.
Qed.

Lemma py_sum_cons (x : R) l : py_sum (x :: l) = x + py_sum l.
Proof. unfold py_sum. cbn. to_R. rewrite foldl_Rplus_acc. lra. Qed.

Lemma py_sum_perm l l' : l ≡ₚ l' → py_sum l = py_sum l'.
Proof.
  induction 1 as [|x l l' _ IH|x y l|l l' l'' _ IH1 _ IH2];
    rewrite ?py_sum_cons; [done|lra|lra|congruence].
Qed.

Lemma sum_ratings_map_to_list m : sum_ratings m = py_sum (map_to_list m).*2.
Proof.
  induction m as [|i x m Hi IH] using map_ind.
  - by rewrite sum_ratings_empty, map_to_list_empty.
  - rewrite sum_ratings_insert_fresh by done.
    rewrite (py_sum_perm _ (x :: (map_to_list m).*2)).
    + rewrite py_sum_cons. by rewrite IH.
    + by rewrite map_to_list_insert.
Qed.

Lemma get_standings_ratings h self items :
  dict_items h (ratings self) items →
  (get_standings self items).*2 ≡ₚ (map_to_list (rating_map h self)).*2.
Proof.
  unfold dict_items, get_standings, rating_map. intros Hitems.
  rewrite sorted_desc_perm, <- list_fmap_compose, <- Hitems.
  by rewrite (list_fmap_ext _ snd items) by done.
Qed.

(** X21.  The sum over the standings is the sum of the ratings of the map,
    in whatever order the dict lists them, and the average the dashboard
    shows is that sum over the number of rated teams. *)
Theorem avg_rating_is_mean h self items :
  dict_items h (ratings self) items →
  py_sum (get_standings self items).*2 = sum_ratings (rating_map h self) ∧
  avg_rating (get_standings self items)
  = sum_ratings (rating_map h self) / INR (size (rating_map h self)).
Proof.
  intros Hitems.
  assert (py_sum (get_standings self items).*2
          = sum_ratings (rating_map h self)) as Hsum.
  { rewrite sum_ratings_map_to_list. apply py_sum_perm.
    by apply get_standings_ratings. }
  split; [done|]. unfold avg_rating. rewrite Hsum. to_R.
  rewrite <- INR_IZR_INZ. do 2 f_equal.
  rewrite <- (length_map_to_list (rating_map h self)).
  rewrite <- (length_fmap snd (get_standings self items)).
  rewrite <- (length_fmap snd (map_to_list (rating_map h self))).
  apply Permutation_length. by apply get_standings_ratings.
Qed.

(** A run between rated teams, each game between two different ones, keeps
    the ids and the sum of the map. *)
Lemma play_games_rated (games : list (string * GameResult)) : ∀ h self,
  Forall (λ g, res_home g.2 ≠ res_away g.2 ∧
               res_home g.2 ∈ dom (rating_map h self) ∧
               res_away g.2 ∈ dom (rating_map h self)) games →
  ∃ h' self',
    play_games h self games = Some (h', self') ∧
    dom (rating_map h' self') = dom (rating_map h self) ∧
    sum_ratings (rating_map h' self') = sum_ratings (rating_map h self).
Proof.
  induction games as [|[now g] rest IH]; intros h self Hgames.
  - by exists h, self.
  - apply Forall_cons in Hgames as [(Hne & Hhome & Haway) Hrest].
    cbn in Hne, Hhome, Haway. rewrite play_games_cons.
    destruct (play_game h self now (res_home g) (res_away g)
                (res_home_score g) (res_away_score g))
      as [[[h1 e1] r]|] eqn:P; [|play_game_inv P].
    cbn [mbind option_bind fst snd].
    assert (dom (rating_map h1 e1) = dom (rating_map h self)) as Hdom.
    { rewrite (rating_map_play_game _ _ _ _ _ _ _ _ _ _ P), !dom_insert_L.
      set_solver. }
    destruct (IH h1 e1) as (h' & self' & Q & Hdom' & Hsum').
    { eapply Forall_impl; [exact Hrest|]. cbn. intros g0. by rewrite Hdom. }
    exists h', self'. split; [done|].
    rewrite Hdom', Hsum', Hdom. split; [done|].
    by eapply sum_ratings_play_game.
Qed.

(** X22.  The average of the standings does not move over a run in which
    every game is between two different teams that both have a rating
    already. *)
Theorem avg_rating_unchanged h self games items :
  Forall (λ g, res_home g.2 ≠ res_away g.2 ∧
               res_home g.2 ∈ dom (rating_map h self) ∧
               res_away g.2 ∈ dom (rating_map h self)) games →
  dict_items h (ratings self) items →
  ∃ h' self',
    play_games h self games = Some (h', self') ∧
    ∀ items',
      dict_items h' (ratings self') items' →
      avg_rating (get_standings self' items')
      = avg_rating (get_standings self items).
Proof.
  intros Hgames Hitems.
  destruct (play_games_rated games h self Hgames)
    as (h' & self' & Q & Hdom & Hsum).
  exists h', self'. split; [done|]. intros items' Hitems'.
  assert (∀ (h0 : gmap loc (gmap string R)) (e0 : RatingSystem R) its,
            dict_items h0 (ratings e0) its →
            avg_rating (get_standings e0 its)
            = sum_ratings (rating_map h0 e0)
              / INR (size (dom (rating_map h0 e0)))) as Havg.
  { intros h0 e0 its Hits. unfold avg_rating.
    rewrite (py_sum_perm _ _ (get_standings_ratings h0 e0 its Hits)).
    rewrite <- sum_ratings_map_to_list. to_R.
    rewrite <- INR_IZR_INZ, size_dom. do 2 f_equal.
    rewrite <- (length_map_to_list (rating_map h0 e0)).
    rewrite <- (length_fmap snd (get_standings e0 its)).
    rewrite <- (length_fmap snd (map_to_list (rating_map h0 e0))).
    apply Permutation_length. by apply get_standings_ratings. }
  rewrite (Havg h' self' items' Hitems'), (Havg h self items Hitems).
  by rewrite Hdom, Hsum.
Qed.

End average_exact.

(** ** An engine without display names *)

Section names_facts.
Context {T : Type} `{Arith T} `{Less T}.

Implicit Types (h : gmap loc (gmap string T)) (self : RatingSystem T).

Lemma play_games_without_names (games : list (string * GameResult)) :
  ∀ h self h' self',
    team_mapping self = ∅ →
    Forall (λ r, home_team_full r = home r ∧ away_team_full r = away r)
      (game_history self) →
    play_games h self games = Some (h', self') →
    team_mapping self' = ∅ ∧
    Forall (λ r, home_team_full r = home r ∧ away_team_full r = away r)
      (game_history self').
Proof.
  induction games as [|[now g] rest IH]; intros h self h' self' Htm Hlog.
  - by intros [= <- <-].
  - rewrite play_games_cons.
    destruct (play_game h self now (res_home g) (res_away g)
                (res_home_score g) (res_away_score g))
      as [[[h1 e1] r]|] eqn:P; [|play_game_inv P].
    cbn [mbind option_bind fst snd]. apply IH.
    + by play_game_inv P.
    + play_game_inv P. cbn. apply Forall_app. split; [done|].
      constructor; [|constructor]. cbn. by rewrite Htm, !lookup_empty.
Qed.

(** X23.  An engine built without a team mapping, as the Reset button
    builds it, knows no display names: over any run, every record it logs
    has the ids in the two full-name fields, and its standings list the
    teams under their ids. *)
Theorem engine_without_team_mapping h arg k_arg ha_arg
    (games : list (string * GameResult)) :
  ∃ h' self',
    play_games (init h arg None k_arg ha_arg).1
      (init h arg None k_arg ha_arg).2 games = Some (h', self') ∧
    Forall (λ r, home_team_full r = home r ∧ away_team_full r = away r)
      (game_history self') ∧
    ∀ items, get_standings self' items = sorted_desc items.
Proof.
  set (s := init h arg None k_arg ha_arg).
  destruct (init_fields h arg None k_arg ha_arg) as (Htm & _ & _ & Hlog).
  fold s in Htm, Hlog. cbn in Htm.
  destruct (play_games s.1 s.2 games) as [[h' self']|] eqn:Q;
    [|by destruct (play_games_total s.1 s.2 games) as [? ?]; congruence].
  destruct (play_games_without_names games _ _ _ _ Htm
              ltac:(rewrite Hlog; constructor) Q) as [Htm' Hnames].
  exists h', self'. split; [done|]. split; [done|].
  intros items. unfold get_standings. f_equal.
  rewrite <- (list_fmap_id items) at 2. apply list_fmap_ext.
  intros i [team rating] _. cbn. by rewrite Htm', lookup_empty.
Qed.

End names_facts.

(** The standings of the two-team map of the exact witnesses. *)
Lemma two_team_items :
  dict_items
    ({[ 1%positive := <["A" := 1%R]> {[ "B" := 2%R ]} ]}
       : gmap loc (gmap string R))
    (ratings (mkRatingSystem (T := R) 1%positive ∅ 0.05%R 2.2%R []))
    [("A", 1%R); ("B", 2%R)].
Proof.
  unfold dict_items, deref. cbn [ratings]. rewrite lookup_singleton_eq.
  cbn [default]. unfold Datatypes.id.
  rewrite map_to_list_insert by done. by rewrite map_to_list_singleton.
Qed.

Lemma avg_rating_is_mean_witness :
  let h : gmap loc (gmap string R) :=
    {[ 1%positive := <["A" := 1%R]> {[ "B" := 2%R ]} ]} in
  let self := mkRatingSystem (T := R) 1%positive ∅ 0.05%R 2.2%R [] in
  let items := [("A", 1%R); ("B", 2%R)] in
  dict_items h (ratings self) items ∧
  py_sum (get_standings self items).*2 = sum_ratings (rating_map h self).
Proof.
  cbv zeta. split; [exact two_team_items|].
  exact (proj1 (avg_rating_is_mean _ _ _ two_team_items)).
Defined.

(** A 90 - 85 B between the two rated teams. *)
Lemma avg_rating_unchanged_witness :
  let h : gmap loc (gmap string R) :=
    {[ 1%positive := <["A" := 1%R]> {[ "B" := 2%R ]} ]} in
  let self := mkRatingSystem (T := R) 1%positive ∅ 0.05%R 2.2%R [] in
  let items := [("A", 1%R); ("B", 2%R)] in
  let games := [("t", mkGameResult "A" "B" 90 85)] in
  Forall (λ g : string * GameResult,
            res_home g.2 ≠ res_away g.2 ∧
            res_home g.2 ∈ dom (rating_map h self) ∧
            res_away g.2 ∈ dom (rating_map h self)) games ∧
  dict_items h (ratings self) items ∧
  ∃ h' self',
    play_games h self games = Some (h', self') ∧
    ∀ items',
      dict_items h' (ratings self') items' →
      avg_rating (get_standings self' items')
      = avg_rating (get_standings self items).
Proof.
  cbv zeta.
  assert (Forall (λ g : string * GameResult,
            res_home g.2 ≠ res_away g.2 ∧
            res_home g.2
            ∈ dom (rating_map
                     ({[ 1%positive := <["A" := 1%R]> {[ "B" := 2%R ]} ]}
                        : gmap loc (gmap string R))
                     (mkRatingSystem (T := R) 1%positive ∅ 0.05%R 2.2%R [])) ∧
            res_away g.2
            ∈ dom (rating_map
                     ({[ 1%positive := <["A" := 1%R]> {[ "B" := 2%R ]} ]}
                        : gmap loc (gmap string R))
                     (mkRatingSystem (T := R) 1%positive ∅ 0.05%R 2.2%R [])))
            [("t", mkGameResult "A" "B" 90 85)]) as Hgames.
  { constructor; [|constructor]. cbn [snd res_home res_away].
    unfold rating_map, deref. cbn [ratings]. rewrite lookup_singleton_eq.
    cbn [default]. unfold Datatypes.id.
    rewrite dom_insert_L, dom_singleton_L.
    split; [discriminate|]. split; set_solver. }
  split; [exact Hgames|]. split; [exact two_team_items|].
  exact (avg_rating_unchanged _ _ _ _ Hgames two_team_items).
Defined.

(** ** A team against itself, in every arithmetic *)

(** Inequality of two doubles that compute to different values. *)
Ltac float_neq H :=
  vm_compute in H;
  lazymatch type of H with
  | ?a = ?b =>
      apply (f_equal (λ v : float, PrimFloat.eqb v b)) in H;
      vm_compute in H; discriminate H
  end.

(** C10, as the code has it.  In a call with the same id [x] on both
    sides, with [r] the rating of [x] before the call, the engine computes
    [expected = (r + home_adv) - r] and
    [delta = k * ((home_score - away_score) - expected)]; the second
    assignment overwrites the first, so [x] ends at [r - delta], and the
    record has [r] in both before-fields and [r - delta] in both
    after-fields.  In exact arithmetic [expected] is the home advantage, so
    [delta = k * ((home_score - away_score) - home_adv)]; [r - delta] is
    neither [r] nor [r + delta] unless [delta] is zero; and the sum of the
    ratings drops by [delta]. *)
Theorem self_game :
  (∀ (T : Type) (A : Arith T) (h : gmap loc (gmap string T))
     (self : RatingSystem T) (now x : string) (hs as_ : Z),
     let r := default zero (rating_map h self !! x) in
     let expected := sub (add r (home_adv self)) r in
     let delta := mul (k self) (sub (of_int (hs - as_)) expected) in
     ∃ h' self' rec,
       play_game h self now x x hs as_ = Some (h', self', rec) ∧
       expected_mov_ rec = expected ∧
       delta_rating_ rec = delta ∧
       rating_map h' self' = <[x := sub r delta]> (rating_map h self) ∧
       rating_map h' self' !! x = Some (sub r delta) ∧
       home_rating_before rec = r ∧ away_rating_before rec = r ∧
       home_rating_after rec = sub r delta ∧
       away_rating_after rec = sub r delta) ∧
  (∀ (h : gmap loc (gmap string R)) (self : RatingSystem R)
     (now x : string) (hs as_ : Z),
     let r := default 0%R (rating_map h self !! x) in
     let delta := (k self * (IZR (hs - as_) - home_adv self))%R in
     ∃ h' self' rec,
       play_game h self now x x hs as_ = Some (h', self', rec) ∧
       expected_mov_ rec = home_adv self ∧
       delta_rating_ rec = delta ∧
       rating_map h' self' !! x = Some (r - delta)%R ∧
       (delta ≠ 0%R → (r - delta)%R ≠ r ∧ (r - delta)%R ≠ (r + delta)%R) ∧
       sum_ratings (rating_map h' self')
       = (sum_ratings (rating_map h self) - delta)%R).
Proof.
  split.
  - intros T A h self now x hs as_. cbv zeta.
    pose proof (play_game_eq h self now x x hs as_) as E.
    cbv zeta in E. rewrite E. clear E.
    eexists _, _, _. split; [reflexivity|]. cbn.
    rewrite rating_map_insert_upd, insert_insert_eq, decide_True by done.
    rewrite !dict_get_rating_map. unfold expected_mov, delta_rating.
    repeat split; try done. by rewrite lookup_insert_eq.
  - intros h self now x hs as_. cbv zeta.
    pose proof (self_play_exact h self now x hs as_) as Hexact.
    cbv zeta in Hexact.
    destruct Hexact as (h' & self' & rec & P & Hd & _ & Hx & Hne & _ & _ & _
                        & _ & Hsum).
    exists h', self', rec. repeat split; try done; try (by apply Hne).
    pose proof P as P'. play_game_inv P'. cbn [expected_mov_].
    unfold expected_mov. to_R. lra.
Qed.

(** A 90 - 85 A on the default engine, in exact arithmetic:
    [delta = 0.14]. *)
Lemma self_game_witness :
  let s0 := init (T := R) ∅ None None None None in
  let r := default 0%R (rating_map s0.1 s0.2 !! "A") in
  let delta := (k s0.2 * (IZR (90 - 85) - home_adv s0.2))%R in
  delta ≠ 0%R ∧ (r - delta)%R ≠ r ∧ (r - delta)%R ≠ (r + delta)%R.
Proof.
  cbv zeta.
  assert ((k (init (T := R) ∅ None None None None).2
           * (IZR (90 - 85) - home_adv (init (T := R) ∅ None None None None).2))%R
          ≠ 0%R) as Hdelta.
  { destruct default_engine as (Hk & Ha & _). rewrite Hk, Ha.
    change (90 - 85)%Z with 5%Z. lra. }
  split; [exact Hdelta|].
  pose proof (proj2 self_game (init (T := R) ∅ None None None None).1
                (init (T := R) ∅ None None None None).2 "t" "A" 90%Z 85%Z)
    as Hthm.
  cbv zeta in Hthm.
  destruct Hthm as (h' & self' & rec & _ & _ & _ & _ & Hne & _).
  exact (Hne Hdelta).
Defined.

(** C10 as stated fails in the doubles of the program.  With A rated 7.5,
    A 90 - 85 A records the delta 0.14000000000000004, which is not
    [k * ((90 - 85) - home_adv)] = 0.13999999999999999.  With A rated 1e17
    the delta is 0.25 and A is still rated 1e17 after the call. *)
Lemma self_game_binary64 :
  (let s := init ({[ 1%positive := {[ "A" := 7.5%float ]} ]}) (Some 1%positive)
              None None None in
   ∃ h' self' rec,
     play_game s.1 s.2 "t" "A" "A" 90 85 = Some (h', self', rec) ∧
     delta_rating_ rec = 0.14000000000000004%float ∧
     delta_rating_ rec
     ≠ mul (k s.2) (sub (of_int (90 - 85)) (home_adv s.2))) ∧
  (let s := init ({[ 1%positive := {[ "A" := 1e17%float ]} ]}) (Some 1%positive)
              None None None in
   ∃ h' self' rec,
     play_game s.1 s.2 "t" "A" "A" 90 85 = Some (h', self', rec) ∧
     delta_rating_ rec = 0.25%float ∧
     rating_map h' self' !! "A" = rating_map s.1 s.2 !! "A").
Proof.
  split; cbv zeta.
  - destruct (play_game
                (init ({[ 1%positive := {[ "A" := 7.5%float ]} ]})
                   (Some 1%positive) None None None).1
                (init ({[ 1%positive := {[ "A" := 7.5%float ]} ]})
                   (Some 1%positive) None None None).2 "t" "A" "A" 90 85)
      as [[[h' self'] rec]|] eqn:P; vm_compute in P; [|discriminate P].
    injection P as <- <- <-. eexists _, _, _. split; [reflexivity|].
    split; [vm_compute; reflexivity|]. intros Hneq. float_neq Hneq.
  - destruct (play_game
                (init ({[ 1%positive := {[ "A" := 1e17%float ]} ]})
                   (Some 1%positive) None None None).1
                (init ({[ 1%positive := {[ "A" := 1e17%float ]} ]})
                   (Some 1%positive) None None None).2 "t" "A" "A" 90 85)
      as [[[h' self'] rec]|] eqn:P; vm_compute in P; [|discriminate P].
    injection P as <- <- <-. eexists _, _, _. split; [reflexivity|].
    split; vm_compute; reflexivity.
Qed.

(** ** The two games of the scenario, exactly and in doubles *)

(** The scenario as the program computes it, under any clock. *)
Lemma scenario_two_games_doubles (now1 now2 : string) :
  let s0 := init (T := float) ∅ None None None None in
  ∃ h1 e1 r1 h2 e2 r2,
    play_game s0.1 s0.2 now1 "A" "B" 90 85 = Some (h1, e1, r1) ∧
    expected_mov_ r1 = 2.2%float ∧ actual_mov_ r1 = 5%Z ∧
    delta_rating_ r1 = 0.13999999999999999%float ∧
    rating_map h1 e1 !! "A" = Some 0.13999999999999999%float ∧
    rating_map h1 e1 !! "B" = Some (-0.13999999999999999)%float ∧
    play_game h1 e1 now2 "B" "A" 80 100 = Some (h2, e2, r2) ∧
    expected_mov_ r2 = 1.9200000000000002%float ∧ actual_mov_ r2 = (-20)%Z ∧
    delta_rating_ r2 = (-1.096)%float ∧
    rating_map h2 e2 !! "B" = Some (-1.236)%float ∧
    rating_map h2 e2 !! "A" = Some 1.236%float.
Proof.
  cbv zeta. set (s0 := init (T := float) ∅ None None None None).
  destruct (play_game_step s0.1 s0.2 now1 "A" "B" 90 85)
    as (h1 & e1 & r1 & P1 & Hk1 & Ha1 & Hb1 & Hb1' & He1 & Hact1 & Hd1 & Hm1
        & _).
  destruct (play_game_step h1 e1 now2 "B" "A" 80 100)
    as (h2 & e2 & r2 & P2 & Hk2 & Ha2 & Hb2 & Hb2' & He2 & Hact2 & Hd2 & Hm2
        & _).
  assert (home_rating_before r1 = 0%float) as Hb10
    by (rewrite Hb1; vm_compute; reflexivity).
  assert (away_rating_before r1 = 0%float) as Hb10'
    by (rewrite Hb1'; vm_compute; reflexivity).
  assert (expected_mov_ r1 = 2.2%float) as He10
    by (rewrite He1, Hb10, Hb10'; vm_compute; reflexivity).
  assert (delta_rating_ r1 = 0.13999999999999999%float) as Hd10
    by (rewrite Hd1, He10; vm_compute; reflexivity).
  rewrite Hb10, Hb10', Hd10 in Hm1.
  assert (rating_map h1 e1 !! "A" = Some 0.13999999999999999%float) as HA1.
  { rewrite Hm1, lookup_insert_ne, lookup_insert_eq by done.
    vm_compute. reflexivity. }
  assert (rating_map h1 e1 !! "B" = Some (-0.13999999999999999)%float) as HB1.
  { rewrite Hm1, lookup_insert_eq. vm_compute. reflexivity. }
  rewrite HB1 in Hb2. rewrite HA1 in Hb2'. cbn [default] in Hb2, Hb2'.
  unfold Datatypes.id in Hb2, Hb2'.
  assert (expected_mov_ r2 = 1.9200000000000002%float) as He20
    by (rewrite He2, Hb2, Hb2', Ha1; vm_compute; reflexivity).
  assert (delta_rating_ r2 = (-1.096)%float) as Hd20
    by (rewrite Hd2, He20, Hk1; vm_compute; reflexivity).
  exists h1, e1, r1, h2, e2, r2.
  repeat split; try done.
  - rewrite Hm2, lookup_insert_ne, lookup_insert_eq by done.
    rewrite Hb2, Hd20. vm_compute. reflexivity.
  - rewrite Hm2, lookup_insert_eq. rewrite Hb2', Hd20.
    vm_compute. reflexivity.
Qed.

(** C4, as the code has it.  On an engine built with no initial ratings
    and the default parameters [k = 0.05] and [home_adv = 2.2], the games
    A 90 - 85 B and then B 80 - 100 A have, in exact arithmetic, expected
    margins [2.2] and [1.92], actual margins [5] and [-20], deltas [0.14]
    and [-1.096], and leave A at [0.14] and then [1.236], B at [-0.14] and
    then [-1.236].  In the doubles of the program the expected margins are
    2.2 and 1.9200000000000002, the deltas 0.13999999999999999 and -1.096,
    A is left at 0.13999999999999999 and then 1.236, B at
    -0.13999999999999999 and then -1.236 (a decimal standing for the double
    nearest to it). *)
Theorem scenario_two_games_values (now1 now2 : string) :
  (let s0 := init (T := R) ∅ None None None None in
   ∃ h1 e1 r1 h2 e2 r2,
     play_game s0.1 s0.2 now1 "A" "B" 90 85 = Some (h1, e1, r1) ∧
     expected_mov_ r1 = 2.2%R ∧ actual_mov_ r1 = 5%Z ∧
     delta_rating_ r1 = 0.14%R ∧
     rating_map h1 e1 !! "A" = Some 0.14%R ∧
     rating_map h1 e1 !! "B" = Some (-0.14)%R ∧
     play_game h1 e1 now2 "B" "A" 80 100 = Some (h2, e2, r2) ∧
     expected_mov_ r2 = 1.92%R ∧ actual_mov_ r2 = (-20)%Z ∧
     delta_rating_ r2 = (-1.096)%R ∧
     rating_map h2 e2 !! "B" = Some (-1.236)%R ∧
     rating_map h2 e2 !! "A" = Some 1.236%R) ∧
  (let s0 := init (T := float) ∅ None None None None in
   ∃ h1 e1 r1 h2 e2 r2,
     play_game s0.1 s0.2 now1 "A" "B" 90 85 = Some (h1, e1, r1) ∧
     expected_mov_ r1 = 2.2%float ∧ actual_mov_ r1 = 5%Z ∧
     delta_rating_ r1 = 0.13999999999999999%float ∧
     rating_map h1 e1 !! "A" = Some 0.13999999999999999%float ∧
     rating_map h1 e1 !! "B" = Some (-0.13999999999999999)%float ∧
     play_game h1 e1 now2 "B" "A" 80 100 = Some (h2, e2, r2) ∧
     expected_mov_ r2 = 1.9200000000000002%float ∧
     actual_mov_ r2 = (-20)%Z ∧
     delta_rating_ r2 = (-1.096)%float ∧
     rating_map h2 e2 !! "B" = Some (-1.236)%float ∧
     rating_map h2 e2 !! "A" = Some 1.236%float).
Proof.
  split.
  - pose proof (scenario_two_games_exact now1 now2) as Hexact.
    cbv zeta in Hexact |- *.
    destruct Hexact as (h1 & e1 & r1 & h2 & e2 & r2 & _ & _ & _ & P1 & _ & _
                        & He1 & Ha1 & Hd1 & HA1 & HB1 & P2 & _ & _ & He2 & Ha2
                        & Hd2 & HB2 & HA2).
    by exists h1, e1, r1, h2, e2, r2.
  - apply scenario_two_games_doubles.
Qed.

(** C4 as stated fails in the doubles of the program: the delta of the
    first game, the ratings it leaves and the expected margin of the second
    game are not the doubles 0.14, -0.14 and 1.92. *)
Lemma scenario_two_games_not_exact :
  let s0 := init (T := float) ∅ None None None None in
  ∃ h1 e1 r1 h2 e2 r2,
    play_game s0.1 s0.2 "t1" "A" "B" 90 85 = Some (h1, e1, r1) ∧
    play_game h1 e1 "t2" "B" "A" 80 100 = Some (h2, e2, r2) ∧
    delta_rating_ r1 ≠ 0.14%float ∧
    rating_map h1 e1 !! "A" ≠ Some 0.14%float ∧
    rating_map h1 e1 !! "B" ≠ Some (-0.14)%float ∧
    expected_mov_ r2 ≠ 1.92%float.
Proof.
  cbv zeta.
  destruct (scenario_two_games_doubles "t1" "t2")
    as (h1 & e1 & r1 & h2 & e2 & r2 & P1 & _ & _ & Hd1 & HA1 & HB1 & P2 & He2
        & _).
  exists h1, e1, r1, h2, e2, r2. split; [done|]. split; [done|].
  rewrite Hd1, HA1, HB1, He2.
  repeat split; [intros Hneq|intros [= Hneq]|intros [= Hneq]|intros Hneq];
    float_neq Hneq.
Qed.

(** ** Prediction, with [math.exp] as it is *)

(** In exact arithmetic [math.exp] returns, and the prediction that can
    raise is the prediction. *)
Lemma predict_game_exact (h : gmap loc (gmap string R)) (self : RatingSystem R)
    home_ away_ :
  Raising.predict_game h self home_ away_
  = (h, self, Some (predict_game h self home_ away_).2).
Proof. reflexivity. Qed.

(** In doubles: on an engine whose initial ratings rate A at -8000,
    [predict_game] for A at home against an unrated B raises (the expected
    margin is -7997.8 and [math.exp(799.78)] overflows); and the margins 400
    and 500 both have probability exactly 1.0. *)
Lemma predict_game_doubles :
  (let s := init ({[ 1%positive := {[ "A" := (-8000)%float ]} ]})
              (Some 1%positive) None None None in
   Raising.predict_game s.1 s.2 "A" "B" = (s.1, s.2, None)) ∧
  (400 <? 500)%float = true ∧
  Raising._mov_to_probability (T := float) 400%float = Some 1%float ∧
  Raising._mov_to_probability (T := float) 500%float = Some 1%float.
Proof. repeat split; vm_compute; reflexivity. Qed.

(** C5, as the code has it.  In every arithmetic, whether [math.exp]
    raises or returns, [predict_game] leaves heap and engine as it found
    them, and the expected margin it works with is
    [home_rating + home_adv - away_rating] over ratings that default to
    [0.0], the margin [play_game] puts in its record for the same ids.  In
    exact arithmetic it returns the probability
    [1 / (1 + exp (- expected / 10))], which is [1/2] at margin [0] and
    strictly increasing in the margin.  In the doubles of the program the
    probability of margin [0] is exactly 0.5 as well, but there is a state
    in which the call raises, and there are two different margins with the
    same probability. *)
Theorem predict_game_reads_only :
  (∀ (T : Type) (A : Arith T) (E : MathExp T)
     (h : gmap loc (gmap string T)) (self : RatingSystem T)
     (home_ away_ : string),
     let home_rating := default zero (rating_map h self !! home_) in
     let away_rating := default zero (rating_map h self !! away_) in
     let expected := sub (add home_rating (home_adv self)) away_rating in
     ∃ res,
       Raising.predict_game h self home_ away_ = (h, self, res) ∧
       (∀ p, res = Some p →
             pred_home_rating p = home_rating ∧
             pred_away_rating p = away_rating ∧
             pred_expected_mov p = expected ∧
             Raising._mov_to_probability expected
             = Some (pred_home_win_probability p)) ∧
       (res = None → Raising._mov_to_probability expected = None) ∧
       ∀ now hs as_, ∃ h' self' r,
         play_game h self now home_ away_ hs as_ = Some (h', self', r) ∧
         expected_mov_ r = expected) ∧
  (∀ mov : R,
     Raising._mov_to_probability mov = Some (1 / (1 + exp (- mov / 10)))%R) ∧
  (1 / (1 + exp (- 0 / 10)) = 1 / 2)%R ∧
  (∀ x y : R,
     (x < y)%R →
     (1 / (1 + exp (- x / 10)) < 1 / (1 + exp (- y / 10)))%R) ∧
  Raising._mov_to_probability (T := float) 0%float = Some 0.5%float ∧
  (∃ (h : gmap loc (gmap string float)) (self : RatingSystem float)
     (home_ away_ : string),
     Raising.predict_game h self home_ away_ = (h, self, None)) ∧
  (∃ x y : float,
     (x <? y)%float = true ∧
     Raising._mov_to_probability x = Raising._mov_to_probability y).
Proof.
  split; [|split; [|split; [|split; [|split; [|split]]]]].
  - intros T A E h self home_ away_. cbv zeta.
    unfold Raising.predict_game. rewrite !dict_get_rating_map.
    unfold expected_mov. eexists. split; [reflexivity|].
    split; [|split].
    + intros p Hp.
      destruct (Raising._mov_to_probability _) as [q|] eqn:Hq;
        [|discriminate Hp].
      by injection Hp as <-.
    + intros Hres.
      by destruct (Raising._mov_to_probability _) as [q|] eqn:Hq.
    + intros now hs as_.
      destruct (play_game_step h self now home_ away_ hs as_)
        as (h' & self' & r & P & _ & _ & Hb & Hb' & He & _).
      exists h', self', r. split; [done|]. by rewrite He, Hb, Hb'.
  - reflexivity.
  - replace (- 0 / 10)%R with 0%R by lra. rewrite exp_0. lra.
  - intros x y Hxy. pose proof (_mov_to_probability_increasing x y Hxy) as Hm.
    by rewrite !_mov_to_probability_eq in Hm.
  - vm_compute. reflexivity.
  - destruct predict_game_doubles as (Hraise & _).
    eexists _, _, "A", "B". exact Hraise.
  - destruct predict_game_doubles as (_ & Hlt & H400 & H500).
    exists 400%float, 500%float. split; [exact Hlt|]. by rewrite H400, H500.
Qed.

(** Margins 0 and 10, in exact arithmetic. *)
Lemma predict_game_reads_only_witness :
  (0 < 10)%R ∧
  (1 / (1 + exp (- 0 / 10)) < 1 / (1 + exp (- 10 / 10)))%R.
Proof.
  assert (0 < 10)%R as H010 by lra.
  split; [exact H010|].
  exact (proj1 (proj2 (proj2 (proj2 predict_game_reads_only))) 0%R 10%R H010).
Defined.

(** C5 as stated fails in the doubles of the program.  On an engine whose
    initial ratings rate A at -8000, [predict_game] for A at home against
    an unrated B raises instead of returning a probability.  And the
    margins 400 and 500 both have probability exactly 1.0: the probability
    is not strictly increasing. *)
Lemma predict_game_binary64 :
  (let s := init ({[ 1%positive := {[ "A" := (-8000)%float ]} ]})
              (Some 1%positive) None None None in
   Raising.predict_game s.1 s.2 "A" "B" = (s.1, s.2, None)) ∧
  (400 <? 500)%float = true ∧
  Raising._mov_to_probability (T := float) 400%float = Some 1%float ∧
  Raising._mov_to_probability (T := float) 500%float = Some 1%float.
Proof. exact predict_game_doubles. Qed.

(** ** The sum of the ratings, in doubles *)

(** C2 as stated fails in two ways.  A self-game changes the sum even in
    exact arithmetic (from 0 to -0.14 on the default engine).  And in the
    doubles of the program one game between two different rated teams
    changes it by a rounding error: with A at 1.5 and B at -2.25, A 79 - 85 B
    takes the sum from -0.75 to -0.74999999999999989. *)
Lemma ratings_sum_not_preserved :
  (let s0 := init (T := R) ∅ None None None None in
   ∃ h' self',
     play_games s0.1 s0.2 [("t", mkGameResult "A" "A" 90 85)]
     = Some (h', self') ∧
     sum_ratings (rating_map h' self') ≠ sum_ratings (rating_map s0.1 s0.2)) ∧
  (let s := init ({[ 1%positive := {[ "A" := 1.5%float; "B" := (-2.25)%float ]} ]})
              (Some 1%positive) None None None in
   ∃ h' self',
     play_games s.1 s.2 [("t", mkGameResult "A" "B" 79 85)]
     = Some (h', self') ∧
     sum_ratings (rating_map s.1 s.2) = (-0.75)%float ∧
     sum_ratings (rating_map h' self') = (-0.74999999999999989)%float ∧
     sum_ratings (rating_map h' self') ≠ sum_ratings (rating_map s.1 s.2)).
Proof.
  split; [exact ratings_sum_self_game|]. cbv zeta.
  destruct (play_games
              (init ({[ 1%positive :=
                          {[ "A" := 1.5%float; "B" := (-2.25)%float ]} ]})
                 (Some 1%positive) None None None).1
              (init ({[ 1%positive :=
                          {[ "A" := 1.5%float; "B" := (-2.25)%float ]} ]})
                 (Some 1%positive) None None None).2
              [("t", mkGameResult "A" "B" 79 85)])
    as [[h' self']|] eqn:Q; vm_compute in Q; [|discriminate Q].
  injection Q as <- <-. eexists _, _. split; [reflexivity|].
  split; [vm_compute; reflexivity|]. split; [vm_compute; reflexivity|].
  intros Hneq. float_neq Hneq.
Qed.
